(** * Fuzzy matching and ranking of groups (src/main.py, lines 22-77)

    A shallow embedding of [levenshtein_distance], [fuzzy_match] and
    [fuzzy_search], with the properties their specification states, and
    of the handlers around them that do not write to the database:
    [get_groups] (on the rows it has read), [serve_catch_all],
    [admin_login] and [admin_status].

    Modelling choices.
    - A Python [str] is a list of characters.  The character type is a
      parameter with decidable equality; [str.lower] and [str.isspace]
      come from the interpreter's Unicode tables and are parameters
      ([lower], [isspace]).  [Module Ascii7] instantiates them for 7-bit
      text, where both are given by a few ranges of codes.
    - A Python [int] that counts characters is a [nat].
    - A Python [float] is a binary64 number, and a number is a rational
      ([Q]); equality of numbers is [Qeq] ([==]).  [fuzzy_match] is
      modelled twice.  [fuzzy_match] computes with the exact numbers:
      scores are the literals 1.0, 0.9, 0.0 and the quotients
      [1 - d / m]; it follows which return statement fires and how
      scores compare, as the specification of the function describes
      them.  [fuzzy_match_b64] rounds every operation to binary64
      ([binary64]: to nearest, ties to even; checked against the floats
      of the machine in [binary64_scores]), and [fuzzy_search] is built
      on it: two totals that are equal as rationals can differ as floats
      ([rank_rounded_totals]), so the order of the result is that of the
      rounded totals.  [fuzzy_match_both] relates the two, and
      [fuzzy_search_default_exact_totals] shows that for the threshold
      of [get_groups] they retain the same groups.
    - A Python exception ([IndexError] on a row, [ZeroDivisionError]) and
      a recursion that does not return are [None] in the [option] monad;
      the theorems show that [None] never comes out.
    - [list.sort(key=..., reverse=True)] is the interpreter's stable sort:
      descending keys, equal keys in their original order.  It is modelled
      by a stable insertion sort [sort_reverse]; a stable sort has no
      other possible result ([sort_reverse_unique]).
    - A handler that raises [HTTPException] returns it ([http]); the
      global [lockout_data] is a state passed in and out, and each
      [datetime.now()] is an argument, a number of microseconds. *)

From Stdlib Require Import QArith Qminmax Qround Qpower Lqa Floats Ascii String.
From Stdlib Require Import Sorting.Sorted.
From stdpp Require Import base decidable option list numbers strings.

(** ** Python built-ins *)

Section Builtins.
Context {A St : Type}.

(** [enumerate(l)], counting from [i]. *)
Fixpoint enumerate_from (i : nat) (l : list A) : list (nat * A) :=
  match l with
  | [] => []
  | x :: l' => (i, x) :: enumerate_from (S i) l'
  end.

Definition enumerate (l : list A) : list (nat * A) := enumerate_from 0 l.

(** [for x in items: st = body(st, x)], where the body may raise. *)
Fixpoint for_each (body : St → A → option St) (items : list A) (st : St)
  : option St :=
  match items with
  | [] => Some st
  | x :: items' => st' ← body st x; for_each body items' st'
  end.
End Builtins.

(** [min(a, b, c)] on ints. *)
Definition min3 (a b c : nat) : nat := a `min` (b `min` c).

(** A [bool] used as an [int], as in [previous_row[j] + (c1 != c2)]. *)
Definition int_of_bool (b : bool) : nat := if b then 1 else 0.

(** [a < b] and [a >= b] on floats. *)
Definition Qlt_bool (a b : Q) : bool := negb (Qle_bool b a).
Definition Qge_bool (a b : Q) : bool := Qle_bool b a.

(** [max(a, b)]: the first argument unless the second is strictly greater. *)
Definition py_max (a b : Q) : Q := if Qlt_bool a b then b else a.

(** A score is a number between 0 and 1. *)
Definition unit_interval (x : Q) : Prop := (0 <= x)%Q ∧ (x <= 1)%Q.

(** [d / m] on ints (true division); [ZeroDivisionError] is [None]. *)
Definition true_div (d m : nat) : option Q :=
  if bool_decide (m = 0) then None
  else Some (inject_Z (Z.of_nat d) / inject_Z (Z.of_nat m))%Q.

(** Line 57: the score of a word at distance [d], for [max_len = len]. *)
Definition word_ratio (d len : nat) : Q :=
  (1 - inject_Z (Z.of_nat d) / inject_Z (Z.of_nat len))%Q.

(** ** Binary64

    The floats of the interpreter are binary64 numbers: 53 significant
    bits, exponents from -1022, rounding to nearest with ties to even.
    [int / int], [float - float], [float * float] and the reading of a
    literal give the binary64 number nearest to the exact result
    ([binary64]); comparisons are exact.  Every number that lines 40-74
    compute lies between 0 and 1, except the bound [1 - threshold], which
    is only compared: overflow, infinities and NaN do not occur and are
    not modelled. *)

Definition pow2 (e : Z) : Q := (2 ^ e)%Q.

(** The exponent of [x > 0]: [pow2 (ilog2 x) <= x < pow2 (ilog2 x + 1)]. *)
Definition ilog2 (x : Q) : Z :=
  let k := (Z.log2 (Qnum x) - Z.log2 (Zpos (Qden x)))%Z in
  if Qle_bool (pow2 k) x then k else (k - 1)%Z.

(** The integer nearest to [y], the even one of the two at a tie. *)
Definition round_half_even (y : Q) : Z :=
  let f := Qfloor y in
  match (y - inject_Z f ?= 1 # 2)%Q with
  | Lt => f
  | Gt => (f + 1)%Z
  | Eq => if Z.even f then f else (f + 1)%Z
  end.

(** The binary64 number nearest to [x > 0]: a multiple of the unit in
    the last place of [x], which is [pow2 (-1074)] for the subnormal
    numbers. *)
Definition binary64_pos (x : Q) : Q :=
  let e := Z.max (ilog2 x) (-1022) in
  let ulp := pow2 (e - 52) in
  (inject_Z (round_half_even (x / ulp)) * ulp)%Q.

Definition binary64 (x : Q) : Q :=
  match (x ?= 0)%Q with
  | Eq => 0%Q
  | Gt => binary64_pos x
  | Lt => (- binary64_pos (- x))%Q
  end.

(** The binary64 score of line 57 as a function of its exact value [v]:
    [ratio] is [1 - v], and both the quotient and the difference are
    rounded. *)
Definition rounded_score (v : Q) : Q := binary64 (1 - binary64 (1 - v)).

(** The number that a float of the kernel stands for, and [float(n)];
    they serve to compare [binary64] with the floats of the machine. *)
Definition float_value (f : float) : option Q :=
  match Prim2SF f with
  | S754_zero _ => Some 0%Q
  | S754_finite s m e =>
      Some ((if s then -1 else 1) * inject_Z (Zpos m) * pow2 e)%Q
  | _ => None
  end.

Definition float_of_nat (n : nat) : float :=
  PrimFloat.of_uint63 (Uint63.of_Z (Z.of_nat n)).

Definition same_number (f : float) (x : Q) : bool :=
  match float_value f with
  | Some y => Qeq_bool y x
  | None => false
  end.

(** Comparisons of scores are decidable. *)
#[global] Instance Qeq_decision : RelDecision Qeq := Qeq_dec.
#[global] Instance Qlt_decision : RelDecision Qlt :=
  λ a b, match Qlt_le_dec a b with
         | left Hlt => left Hlt
         | right Hle => right (Qle_not_lt _ _ Hle)
         end.

Section Sort.
Context {A : Type} (key : A → Q).

(** The order of a list sorted with [reverse=True]: a key is never
    followed by a greater one. *)
Definition descending (a b : A) : Prop := (key b <= key a)%Q.

(** [x] stood before every element of [l] in the list being sorted: it
    goes after the elements with a strictly greater key, and before the
    first one whose key is equal or smaller. *)
Fixpoint insert_reverse (x : A) (l : list A) : list A :=
  match l with
  | [] => [x]
  | y :: l' =>
      if Qlt_bool (key x) (key y) then y :: insert_reverse x l' else x :: l
  end.

(** [l.sort(key=key, reverse=True)]. *)
Definition sort_reverse (l : list A) : list A := foldr insert_reverse [] l.
End Sort.

(** ** Strings *)

Section Str.
Context {char : Type} `{EqDecision char}.
Abbreviation str := (list char).

(** [s.startswith(p)]. *)
Fixpoint startswith (p s : str) : bool :=
  match p, s with
  | [], _ => true
  | _ :: _, [] => false
  | a :: p', b :: s' => bool_decide (a = b) && startswith p' s'
  end.

(** [q in s]: [q] occurs in [s] as a run of consecutive characters. *)
Fixpoint str_in (q s : str) : bool :=
  startswith q s
  || match s with
     | [] => false
     | _ :: s' => str_in q s'
     end.

(** [q] is a slice of [s]: the meaning of [q in s]. *)
Definition slice (q s : str) : Prop := ∃ l r, s = l ++ q ++ r.

Variable isspace : char → bool.

(** [s.split()] scanning [s] with the word read so far in [word]:
    words are the maximal runs of characters that are not whitespace. *)
Fixpoint split_from (word s : str) : list str :=
  match s with
  | [] => match word with [] => [] | _ :: _ => [word] end
  | c :: s' =>
      if isspace c then
        match word with
        | [] => split_from [] s'
        | _ :: _ => word :: split_from [] s'
        end
      else split_from (word ++ [c]) s'
  end.

Definition split (s : str) : list str := split_from [] s.

(** ** [levenshtein_distance] (lines 22-37) *)

(** Lines 32-35: one cell of [current_row]. *)
Definition inner_step (c1 : char) (previous_row current_row : list nat)
    (jc2 : nat * char) : option (list nat) :=
  let '(j, c2) := jc2 in
  up ← previous_row !! (j + 1);
  let insertions := up + 1 in
  left ← current_row !! j;
  let deletions := left + 1 in
  diag ← previous_row !! j;
  let substitutions := diag + int_of_bool (bool_decide (c1 ≠ c2)) in
  Some (current_row ++ [min3 insertions deletions substitutions]).

(** Lines 30-36: the row of [s1[:i+1]], from the row of [s1[:i]]. *)
Definition outer_step (s2 : str) (previous_row : list nat)
    (ic1 : nat * char) : option (list nat) :=
  let '(i, c1) := ic1 in
  for_each (inner_step c1 previous_row) (enumerate s2) [i + 1].

(** The function, with [fuel] bounding the depth of the recursion of
    line 24. *)
Fixpoint levenshtein_distance_fuel (fuel : nat) (s1 s2 : str) : option nat :=
  if bool_decide (length s1 < length s2) then
    match fuel with
    | 0 => None
    | S fuel' => levenshtein_distance_fuel fuel' s2 s1
    end
  else if bool_decide (length s2 = 0) then Some (length s1)
  else
    previous_row ←
      for_each (outer_step s2) (enumerate s1) (seq 0 (length s2 + 1));
    last previous_row.

(** One nested call is all the function ever makes (see
    [levenshtein_distance_fuel_enough]). *)
Definition levenshtein_distance (s1 s2 : str) : option nat :=
  levenshtein_distance_fuel 1 s1 s2.

(** ** [fuzzy_match] (lines 40-63) *)

Variable lower : str → str.

(** The four return statements of [fuzzy_match], by line. *)
Inductive exit : Set :=
| Line45   (* query in text: 1.0 *)
| Line50   (* query in word: 0.9 *)
| Line62   (* max_score >= 1 - threshold: max_score *)
| Line63.  (* 0.0 *)

(** Lines 54-59: the body of the second loop over [words]. *)
Definition word_step (query : str) (max_score : Q) (word : str) : option Q :=
  if bool_decide (length query ≤ length word) then
    distance ← levenshtein_distance query word;
    let max_len := length query `max` length word in
    ratio ← true_div distance max_len;
    let score := (1 - ratio)%Q in
    Some (if Qlt_bool max_score score then score else max_score)
  else Some max_score.

(** [fuzzy_match], returning the line it returns from with the value. *)
Definition fuzzy_match_exit (query text : str) (threshold : Q)
  : option (exit * Q) :=
  let query := lower query in
  let text := lower text in
  if str_in query text then Some (Line45, 1%Q)
  else
    let words := split text in
    if existsb (str_in query) words then Some (Line50, 0.9%Q)
    else
      max_score ← for_each (word_step query) words 0%Q;
      if Qge_bool max_score (1 - threshold)%Q then Some (Line62, max_score)
      else Some (Line63, 0%Q).

Definition fuzzy_match (query text : str) (threshold : Q) : option Q :=
  snd <$> fuzzy_match_exit query text threshold.

(** What [fuzzy_match] returns, by the line it returns from. *)
Definition exit_post (query text : str) (threshold : Q)
    (e : exit) (v : Q) : Prop :=
  match e with
  | Line45 => v = 1%Q ∧ slice (lower query) (lower text)
  | Line50 => False
  | Line62 =>
      ¬ slice (lower query) (lower text) ∧ (1 - threshold <= v)%Q
  | Line63 => v = 0%Q ∧ ¬ slice (lower query) (lower text)
  end.

(** ** [fuzzy_match] in binary64

    The same lines with the rounding of each operation: the quotient of
    line 57 and the difference [1 - ratio], the literals, and the bound
    [1 - threshold] of line 61.  A [threshold] that is no binary64 number
    stands for the nearest one, as a literal does. *)

Definition word_step_b64 (query : str) (max_score : Q) (word : str)
  : option Q :=
  if bool_decide (length query ≤ length word) then
    distance ← levenshtein_distance query word;
    let max_len := length query `max` length word in
    ratio ← true_div distance max_len;
    let score := binary64 (1 - binary64 ratio) in
    Some (if Qlt_bool max_score score then score else max_score)
  else Some max_score.

Definition fuzzy_match_b64 (query text : str) (threshold : Q) : option Q :=
  let query := lower query in
  let text := lower text in
  if str_in query text then Some 1%Q
  else
    let words := split text in
    if existsb (str_in query) words then Some (binary64 0.9)
    else
      max_score ← for_each (word_step_b64 query) words 0%Q;
      if Qge_bool max_score (binary64 (1 - binary64 threshold))
      then Some max_score
      else Some 0%Q.

(** ** [fuzzy_search] (lines 66-77) *)

(** A group is any object with a [name] and an optional [description]
    (the ORM class lives in database.py). *)
Context {group : Type} (name : group → str) (description : group → option str).

(** Lines 69-71: [total_score] of one group; [description or ""]. *)
Definition total_score (query : str) (threshold : Q) (g : group) : option Q :=
  name_score ← fuzzy_match query (name g) threshold;
  desc_score ← fuzzy_match query (default [] (description g)) threshold;
  Some (py_max name_score (desc_score * 0.7)%Q).

(** Lines 69-71 in binary64: the total as the machine holds it. *)
Definition total_score_b64 (query : str) (threshold : Q) (g : group)
  : option Q :=
  name_score ← fuzzy_match_b64 query (name g) threshold;
  desc_score ← fuzzy_match_b64 query (default [] (description g)) threshold;
  Some (py_max name_score (binary64 (desc_score * binary64 0.7))).

(** Lines 69-74: the body of the loop over [groups].  The total that
    line 73 tests and that line 76 sorts on is the binary64 one: two
    totals that are equal as rationals can differ by a rounding, and the
    result follows the rounded ones. *)
Definition search_step (query : str) (threshold : Q)
    (results : list (group * Q)) (g : group) : option (list (group * Q)) :=
  total ← total_score_b64 query threshold g;
  Some (if Qlt_bool 0%Q total then results ++ [(g, total)] else results).

Definition fuzzy_search (query : str) (groups : list group) (threshold : Q)
  : option (list group) :=
  results ← for_each (search_step query threshold) groups [];
  Some (fst <$> sort_reverse snd results).

(** The aggregate score as a number (0 if [total_score] raised, which
    [total_score_aggregate] excludes). *)
Definition aggregate (query : str) (threshold : Q) (g : group) : Q :=
  default 0%Q (total_score query threshold g).

(** The binary64 total as a number ([total_score_b64] never raises
    either, see [total_score_b64_aggregate]): the aggregate score that
    [fuzzy_search] tests and sorts on. *)
Definition aggregate_b64 (query : str) (threshold : Q) (g : group) : Q :=
  default 0%Q (total_score_b64 query threshold g).
End Str.

(** ** 7-bit text *)

Module Ascii7.
(** [c.lower()] on one ASCII character: A-Z (65-90) move up by 32. *)
Definition lower_char (c : ascii) : ascii :=
  let n := nat_of_ascii c in
  if bool_decide (65 ≤ n ≤ 90) then ascii_of_nat (n + 32) else c.

Definition lower (s : list ascii) : list ascii := lower_char <$> s.

(** [c.isspace()] on ASCII: TAB..CR (9-13), FS..US (28-31), space. *)
Definition isspace (c : ascii) : bool :=
  let n := nat_of_ascii c in
  bool_decide (9 ≤ n ≤ 13) || bool_decide (28 ≤ n ≤ 31) || bool_decide (n = 32).

Definition text (s : string) : list ascii := list_ascii_of_string s.

Definition score (query text' : string) (threshold : Q) : option Q :=
  fuzzy_match isspace lower (text query) (text text') threshold.

Record group := Group { name : list ascii; description : option (list ascii) }.

Definition rank (query : string) (groups : list group) (threshold : Q)
  : option (list group) :=
  fuzzy_search isspace lower name description (text query) groups threshold.

(** The two records of the specification's end-to-end scenario. *)
Definition soccer_fans : group :=
  Group (text "Soccer Fans") (Some (text "weekly matches")).
Definition book_club : group :=
  Group (text "Book Club") (Some (text "soccer novels discussion")).
End Ascii7.

(** ** The edit distance, as the specification defines it *)

Section EditDistance.
Context {char : Type} `{EqDecision char}.
Abbreviation str := (list char).

(** The textbook recursion on the first characters of both strings. *)
Fixpoint lev (s t : str) {struct s} : nat :=
  match s with
  | [] => length t
  | a :: s' =>
      (fix lev_s (t : str) : nat :=
         match t with
         | [] => length s
         | b :: t' =>
             min3 (lev s' t + 1) (lev_s t' + 1)
                  (lev s' t' + int_of_bool (bool_decide (a ≠ b)))
         end) t
  end.

(** [edit s t n]: some sequence of single-character deletions,
    insertions and substitutions (or matches, at no cost) of total
    cost [n] turns [s] into [t]. *)
Inductive edit : str → str → nat → Prop :=
| edit_nil : edit [] [] 0
| edit_delete a s t n : edit s t n → edit (a :: s) t (S n)
| edit_insert b s t n : edit s t n → edit s (b :: t) (S n)
| edit_substitute a b s t n :
    edit s t n →
    edit (a :: s) (b :: t) (n + int_of_bool (bool_decide (a ≠ b))).

(** The cells [0 .. n-1] of the row that the dynamic program holds for
    the processed part [r] (reversed) of the first string. *)
Definition row_upto (r s2 : str) (n : nat) : list nat :=
  (λ j, lev r (reverse (take j s2))) <$> seq 0 n.

Definition row_of (r s2 : str) : list nat := row_upto r s2 (S (length s2)).
End EditDistance.

(** ** The request handlers (lines 102-112, 179-218, 293-305) *)

(** The [detail] of an [HTTPException]; the handlers below build these
    messages:
    - "Not found";
    - "Cuenta bloqueada. Intenta en [hours] hora(s)";
    - "Cuenta bloqueada. Intenta en [minutes] minutos";
    - "Demasiados intentos. Cuenta bloqueada por 24 horas";
    - "Contraseña incorrecta. Intentos: [attempts]/3". *)
Inductive detail : Set :=
| NotFound
| LockedHours (hours : Z)
| LockedMinutes (minutes : Z)
| TooManyAttempts
| WrongPassword (attempts : nat).

(** What a handler does: it returns a value, or raises
    [HTTPException(status_code, detail)]. *)
Inductive http (A : Type) : Type :=
| Return (a : A)
| HTTPException (status_code : nat) (message : detail).
Arguments Return {A} a.
Arguments HTTPException {A} status_code message.

Section GetGroups.
Context {char : Type} `{EqDecision char}.
Variables (isspace : char → bool) (lower : list char → list char).

(** [s.lstrip()], [s.rstrip()] and [s.strip()]. *)
Fixpoint lstrip (s : list char) : list char :=
  match s with
  | [] => []
  | c :: s' => if isspace c then lstrip s' else s
  end.

Definition rstrip (s : list char) : list char := reverse (lstrip (reverse s)).

Definition strip (s : list char) : list char := rstrip (lstrip s).

(** The truth value of a [str] in a condition: it is not empty. *)
Definition str_truth (s : list char) : bool :=
  match s with
  | [] => false
  | _ :: _ => true
  end.

(** A row of the table: an object with a [name], an optional
    [description] and a [pinned] flag read as a truth value;
    [group_to_dict] (lines 115-123) copies its attributes into a [dict]. *)
Context {group dict : Type}.
Variables (name : group → list char) (description : group → option (list char)).
Variables (pinned : group → bool) (group_to_dict : group → dict).

(** Lines 106-112 on [groups = db.query(Group).all()], before the rows
    are turned into dicts. *)
Definition get_groups_rows (q : option (list char)) (groups : list group)
  : option (list group) :=
  match q with
  | Some s =>
      if str_truth s && str_truth (strip s) then
        fuzzy_search isspace lower name description s groups 0.3%Q
      else
        Some (filter (λ g, pinned g = true) groups
              ++ filter (λ g, pinned g = false) groups)
  | None =>
      Some (filter (λ g, pinned g = true) groups
            ++ filter (λ g, pinned g = false) groups)
  end.

Definition get_groups (q : option (list char)) (groups : list group)
  : option (list dict) :=
  match get_groups_rows q groups with
  | Some rows => Some (group_to_dict <$> rows)
  | None => None
  end.
End GetGroups.

(** A [str] of the handlers is the list of its code points; [codes]
    reads a literal of the source. *)
Definition codes (s : string) : list N := N_of_ascii <$> list_ascii_of_string s.

(** [s.endswith(p)]. *)
Definition endswith {char : Type} `{EqDecision char} (p s : list char) : bool :=
  startswith (reverse p) (reverse s).

(** [FileResponse(path, media_type=...)]. *)
Inductive file_response : Set :=
| FileResponse (path : list N) (media_type : option (list N)).

(** [serve_catch_all] (lines 293-305). *)
Definition serve_catch_all (path : list N) : http file_response :=
  if str_in (codes "..") path then HTTPException 404 NotFound
  else if startswith (codes "api/") path then HTTPException 404 NotFound
  else if endswith (codes "favicon.svg") path
          || str_in (codes "favicon.svg") path then
    Return (FileResponse (codes "static/favicon.svg")
              (Some (codes "image/svg+xml")))
  else if startswith (codes "static/") path then
    Return (FileResponse path None)
  else if bool_decide (path = codes "admin")
          || startswith (codes "admin/") path then
    Return (FileResponse (codes "static/admin.html") None)
  else Return (FileResponse (codes "static/index.html") None).

(** [lockout_data] (line 19).  A [datetime] is a number of microseconds,
    its resolution. *)
Record lockout : Set := Lockout { attempts : nat; locked_until : option Z }.

Definition lockout_init : lockout := Lockout 0 None.

(** [timedelta(hours=24)] and the seconds of lines 185-186, in
    microseconds. *)
Definition hours24 : Z := 24 * 3600 * 1000000.
Definition second : Z := 1000000.

(** [locked_until and now < locked_until] (lines 183 and 215). *)
Definition locked_at (st : lockout) (now : Z) : bool :=
  match locked_until st with
  | Some t => bool_decide (now < t)%Z
  | None => false
  end.

(** Lines 184-190 for [locked_until - now] of [remaining] microseconds.
    [total_seconds()] is a float; [//] and [%] round down, as [Z.div]
    and [Z.modulo] do, and the multiples of a minute are far enough from
    the other multiples of a microsecond for the float not to change the
    quotients (for [remaining] below 2^53). *)
Definition locked_detail (remaining : Z) : detail :=
  let hours := (remaining / (3600 * second))%Z in
  let minutes := ((remaining `mod` (3600 * second)) / (60 * second))%Z in
  if bool_decide (0 < hours)%Z then LockedHours hours
  else LockedMinutes minutes.

Section Admin.
Context {char : Type} `{EqDecision char}.
Variable ADMIN_PASSWORD : list char.

(** [admin_login] (lines 179-210) on the state [st] of [lockout_data],
    with the state it leaves.  [now1] is what [datetime.now()] gives at
    line 183, [now2] what it gives next, at line 184 or 202. *)
Definition admin_login (password : list char) (now1 now2 : Z) (st : lockout)
  : http unit * lockout :=
  if locked_at st now1 then
    let remaining := (default 0%Z (locked_until st) - now2)%Z in
    (HTTPException 403 (locked_detail remaining), st)
  else if bool_decide (password = ADMIN_PASSWORD) then
    (Return (), Lockout 0 None)
  else
    let st := Lockout (attempts st + 1) (locked_until st) in
    if bool_decide (3 ≤ attempts st) then
      (HTTPException 403 TooManyAttempts,
       Lockout (attempts st) (Some (now2 + hours24)%Z))
    else (HTTPException 401 (WrongPassword (attempts st)), st).

(** What [admin_status] returns. *)
Inductive status : Set :=
| StatusLocked (remaining_seconds : Z)
| StatusOpen (attempts : nat).

(** [admin_status] (lines 213-218); [int(...)] drops the fraction of
    the seconds, towards zero. *)
Definition admin_status (now1 now2 : Z) (st : lockout) : status :=
  if locked_at st now1 then
    StatusLocked ((default 0%Z (locked_until st) - now2) ÷ second)%Z
  else StatusOpen (attempts st).

(** One request to [admin_login]: the password sent and the two
    readings of the clock. *)
Record login_request : Type :=
  LoginRequest { sent : list char; clock1 : Z; clock2 : Z }.

(** The state after a sequence of requests. *)
Definition after_logins (requests : list login_request) (st : lockout)
  : lockout :=
  foldl (λ st r, (admin_login (sent r) (clock1 r) (clock2 r) st).2) st requests.
End Admin.

(** ** A small table and a password, for the scenarios *)

Module Demo.
Import Ascii7.

(** A row with the [pinned] flag, and its dict (three of the keys). *)
Record row : Set :=
  Row { row_name : list ascii; row_description : option (list ascii);
        row_pinned : bool }.

Definition row_dict (r : row) : list ascii * option (list ascii) * bool :=
  (row_name r, row_description r, row_pinned r).

Definition chess : row := Row (text "Chess") None false.
Definition soccer : row :=
  Row (text "Soccer Fans") (Some (text "weekly matches")) true.
Definition books : row :=
  Row (text "Book Club") (Some (text "soccer novels discussion")) false.

Definition groups (q : option string) (table : list row)
  : option (list (list ascii * option (list ascii) * bool)) :=
  get_groups isspace lower row_name row_description row_pinned row_dict
    (text <$> q) table.

(** The default of [ADMIN_PASSWORD] (line 17). *)
Definition password : list N := codes "admin123".

(** A wrong password sent at time [now] (both readings of the clock). *)
Definition wrong (now : Z) : login_request :=
  LoginRequest (codes "guess") now now.
End Demo.

(** * Properties *)

Section Loops.
Context {A St : Type}.

(** A loop whose body never raises and keeps [P] ends in a state with [P]. *)
Lemma for_each_invariant (P : St → Prop) (body : St → A → option St) items st :
  P st →
  (∀ st x, x ∈ items → P st → ∃ st', body st x = Some st' ∧ P st') →
  ∃ st', for_each body items st = Some st' ∧ P st'.
Proof.
  revert st. induction items as [|x items IH]; intros st Hst Hbody; simpl.
  - eauto.
  - destruct (Hbody st x) as (st' & -> & Hst'); [left|done|]. simpl.
    apply IH; [done|]. intros st0 y Hy. apply Hbody. by right.
Qed.

End Loops.

Section EditDistanceFacts.
Context {char : Type} `{EqDecision char}.
Implicit Types s t u : list char.

Lemma lev_nil_r s : lev s [] = length s.
Proof. by destruct s. Qed.

Lemma lev_cons a b s t :
  lev (a :: s) (b :: t)
  = min3 (lev s (b :: t) + 1) (lev (a :: s) t + 1)
         (lev s t + int_of_bool (bool_decide (a ≠ b))).
Proof. reflexivity. Qed.

Lemma lev_le_max s t : lev s t ≤ length s `max` length t.
Proof.
  revert t. induction s as [|a s IH]; intros t; [simpl; lia|].
  destruct t as [|b t]; [rewrite lev_nil_r; lia|].
  rewrite lev_cons. specialize (IH t). unfold min3, int_of_bool.
  simpl length. case_bool_decide; lia.
Qed.

(** [lev] is the cost of some edit script ... *)
Lemma edit_all_insert t : edit [] t (length t).
Proof. induction t; simpl; constructor; auto. Qed.

Lemma edit_all_delete s : edit s [] (length s).
Proof. induction s; simpl; constructor; auto. Qed.

Lemma edit_lev s t : edit s t (lev s t).
Proof.
  revert t. induction s as [|a s IHs]; intros t.
  { apply edit_all_insert. }
  induction t as [|b t IHt].
  { rewrite lev_nil_r. apply edit_all_delete. }
  rewrite lev_cons. unfold min3.
  destruct (Nat.min_spec (lev s (b :: t) + 1)
              (Nat.min (lev (a :: s) t + 1)
                 (lev s t + int_of_bool (bool_decide (a ≠ b)))))
    as [[_ ->]|[_ ->]].
  { rewrite Nat.add_1_r. apply edit_delete, IHs. }
  destruct (Nat.min_spec (lev (a :: s) t + 1)
              (lev s t + int_of_bool (bool_decide (a ≠ b))))
    as [[_ ->]|[_ ->]].
  - rewrite Nat.add_1_r. by apply edit_insert.
  - apply edit_substitute, IHs.
Qed.

(** ... and no edit script is cheaper. *)
Lemma lev_le_edit s t n : edit s t n → lev s t ≤ n.
Proof.
  induction 1 as [|a s t n _ IH|b s t n _ IH|a b s t n _ IH].
  - done.
  - destruct t as [|b t]; [rewrite lev_nil_r in *; simpl; lia|].
    rewrite lev_cons. unfold min3. lia.
  - destruct s as [|a s]; [simpl in *; lia|].
    rewrite lev_cons. unfold min3. lia.
  - rewrite lev_cons. unfold min3. lia.
Qed.

Lemma edit_sym s t n : edit s t n → edit t s n.
Proof.
  induction 1 as [|a s t n _ IH|b s t n _ IH|a b s t n _ IH].
  - constructor.
  - by constructor.
  - by constructor.
  - replace (bool_decide (a ≠ b)) with (bool_decide (b ≠ a))
      by (apply bool_decide_ext; naive_solver).
    by constructor.
Qed.

Lemma lev_sym s t : lev s t = lev t s.
Proof.
  apply Nat.le_antisymm; apply lev_le_edit, edit_sym, edit_lev.
Qed.

Lemma int_of_bool_ne_triangle (a b c : char) :
  int_of_bool (bool_decide (a ≠ c))
  ≤ int_of_bool (bool_decide (a ≠ b)) + int_of_bool (bool_decide (b ≠ c)).
Proof. unfold int_of_bool. repeat case_bool_decide; try lia. congruence. Qed.

(** Edit scripts compose: run the one from [s] to [t], then the one
    from [t] to [u]. *)
Lemma edit_trans s t u n m :
  edit s t n → edit t u m → ∃ k, edit s u k ∧ k ≤ n + m.
Proof.
  intros Hst. revert u m.
  induction Hst as [|a s t n _ IH|b s t n Hst IH|a b s t n Hst IH];
    intros u m Htu.
  - eauto.
  - destruct (IH _ _ Htu) as (k & Hk & ?).
    exists (S k). split; [by constructor|lia].
  - remember (b :: t) as t' eqn:Et.
    induction Htu as [|b' t0 u m Htu _|c t0 u m Htu IHu|b' c t0 u m Htu _];
      simplify_eq.
    + destruct (IH _ _ Htu) as (k & Hk & ?). exists k. split; [done|lia].
    + destruct (IHu eq_refl) as (k & Hk & ?).
      exists (S k). split; [by constructor|lia].
    + destruct (IH _ _ Htu) as (k & Hk & ?).
      exists (S k). split; [by constructor|lia].
  - remember (b :: t) as t' eqn:Et.
    induction Htu as [|b' t0 u m Htu _|c t0 u m Htu IHu|b' c t0 u m Htu _];
      simplify_eq.
    + destruct (IH _ _ Htu) as (k & Hk & ?).
      exists (S k). split; [by constructor|lia].
    + destruct (IHu eq_refl) as (k & Hk & ?).
      exists (S k). split; [by constructor|lia].
    + destruct (IH _ _ Htu) as (k & Hk & ?).
      exists (k + int_of_bool (bool_decide (a ≠ c))).
      split; [by constructor|].
      pose proof (int_of_bool_ne_triangle a b c). lia.
Qed.

Lemma edit_refl s : edit s s 0.
Proof.
  induction s as [|a s IH]; [constructor|].
  apply (edit_substitute a a) in IH.
  by rewrite bool_decide_eq_false_2 in IH by naive_solver.
Qed.

(** The same edits, applied at the ends of the strings. *)
Lemma edit_snoc_delete a s t n : edit s t n → edit (s ++ [a]) t (S n).
Proof.
  induction 1 as [|a' s t n _ IH|b' s t n _ IH|a' b' s t n _ IH]; simpl.
  - repeat constructor.
  - by constructor.
  - by constructor.
  - by apply (edit_substitute a' b' _ _ (S n)).
Qed.

Lemma edit_snoc_insert b s t n : edit s t n → edit s (t ++ [b]) (S n).
Proof. intros Hst%edit_sym. by apply edit_sym, edit_snoc_delete. Qed.

Lemma edit_snoc_substitute a b s t n :
  edit s t n →
  edit (s ++ [a]) (t ++ [b]) (n + int_of_bool (bool_decide (a ≠ b))).
Proof.
  induction 1 as [|a' s t n _ IH|b' s t n _ IH|a' b' s t n _ IH]; simpl.
  - apply (edit_substitute a b [] [] 0). constructor.
  - by constructor.
  - by constructor.
  - apply (edit_substitute a' b') in IH.
    by rewrite <- Nat.add_assoc, (Nat.add_comm (int_of_bool _)),
         Nat.add_assoc.
Qed.

Lemma edit_reverse s t n : edit s t n → edit (reverse s) (reverse t) n.
Proof.
  induction 1 as [|a s t n _ IH|b s t n _ IH|a b s t n _ IH];
    rewrite ?reverse_cons.
  - constructor.
  - by apply edit_snoc_delete.
  - by apply edit_snoc_insert.
  - by apply edit_snoc_substitute.
Qed.

Lemma lev_triangle s t u : lev s u ≤ lev s t + lev t u.
Proof.
  destruct (edit_trans s t u _ _ (edit_lev s t) (edit_lev t u))
    as (k & Hk & ?).
  apply lev_le_edit in Hk. lia.
Qed.
End EditDistanceFacts.

Section DynamicProgram.
Context {char : Type} `{EqDecision char}.
Implicit Types s t r p l : list char.

Lemma row_upto_lookup r s n j :
  j < n → row_upto r s n !! j = Some (lev r (reverse (take j s))).
Proof.
  intros Hj. unfold row_upto.
  by rewrite list_lookup_fmap, lookup_seq_lt.
Qed.

Lemma row_upto_S r s n :
  row_upto r s (S n) = row_upto r s n ++ [lev r (reverse (take n s))].
Proof. unfold row_upto. by rewrite seq_S, fmap_app. Qed.

(** Line 28: [range(len(s2) + 1)] is the row of the empty prefix. *)
Lemma row_of_nil s2 : seq 0 (length s2 + 1) = row_of [] s2.
Proof.
  unfold row_of. rewrite Nat.add_1_r.
  assert (∀ n, n ≤ S (length s2) → seq 0 n = row_upto [] s2 n) as Hn; [|auto].
  induction n as [|n IH]; intros Hle; [done|].
  rewrite seq_S, row_upto_S, <- IH by lia. f_equal. simpl. f_equal.
  rewrite length_reverse, length_take. lia.
Qed.

Lemma take_snoc_middle p2 (c2 : char) l2 :
  take (S (length p2)) (p2 ++ c2 :: l2) = p2 ++ [c2].
Proof.
  rewrite (cons_middle c2), (assoc_L (++)).
  apply take_app_length'. rewrite length_app. simpl. lia.
Qed.

(** Lines 32-35: one pass of the inner loop adds the next cell. *)
Lemma inner_step_cell c1 r1 p2 c2 l2 :
  inner_step c1 (row_of r1 (p2 ++ c2 :: l2))
    (row_upto (c1 :: r1) (p2 ++ c2 :: l2) (S (length p2))) (length p2, c2)
  = Some (row_upto (c1 :: r1) (p2 ++ c2 :: l2) (S (S (length p2)))).
Proof.
  unfold inner_step, row_of.
  rewrite !row_upto_lookup by (rewrite ?length_app; simpl; lia).
  cbn [mbind option_bind].
  rewrite (row_upto_S _ _ (S (length p2))). do 2 f_equal.
  rewrite (Nat.add_1_r (length p2)), take_snoc_middle, reverse_snoc.
  by rewrite take_app_length, lev_cons.
Qed.

(** Lines 31-35: the inner loop, started after the cells of [p2],
    completes the row of [c1 :: r1]. *)
Lemma inner_loop c1 r1 l2 : ∀ p2,
  for_each (inner_step c1 (row_of r1 (p2 ++ l2)))
    (enumerate_from (length p2) l2)
    (row_upto (c1 :: r1) (p2 ++ l2) (S (length p2)))
  = Some (row_of (c1 :: r1) (p2 ++ l2)).
Proof.
  induction l2 as [|c2 l2 IH]; intros p2.
  { cbn [enumerate_from for_each]. unfold row_of. by rewrite app_nil_r. }
  cbn [enumerate_from for_each]. rewrite inner_step_cell.
  cbn [mbind option_bind].
  specialize (IH (p2 ++ [c2])).
  rewrite <- (assoc_L (++)), <- cons_middle, length_app in IH.
  cbn [length] in IH. by rewrite Nat.add_1_r in IH.
Qed.

(** Lines 29-36: the outer loop, started after the characters of [p1],
    ends with the row of the whole first string. *)
Lemma outer_loop s2 l1 : ∀ p1,
  for_each (outer_step s2) (enumerate_from (length p1) l1)
    (row_of (reverse p1) s2)
  = Some (row_of (reverse (p1 ++ l1)) s2).
Proof.
  induction l1 as [|c1 l1 IH]; intros p1.
  { cbn [enumerate_from for_each]. by rewrite app_nil_r. }
  cbn [enumerate_from for_each]. unfold outer_step, enumerate.
  pose proof (inner_loop c1 (reverse p1) s2 []) as Hrow.
  cbn [length app] in Hrow.
  replace (row_upto (c1 :: reverse p1) s2 1) with [length p1 + 1] in Hrow.
  2:{ unfold row_upto. cbn [seq fmap list_fmap].
      rewrite take_0, reverse_nil, lev_nil_r. cbn [length].
      rewrite length_reverse. f_equal. lia. }
  rewrite Hrow. cbn [mbind option_bind].
  specialize (IH (p1 ++ [c1])).
  rewrite length_app, reverse_snoc, <- (assoc_L (++)) in IH.
  cbn [length app] in IH. by rewrite Nat.add_1_r in IH.
Qed.

Lemma last_row_of r s2 : last (row_of r s2) = Some (lev r (reverse s2)).
Proof.
  unfold row_of. rewrite row_upto_S, last_snoc. by rewrite take_ge.
Qed.

(** The program computes the specification's distance, at any depth of
    recursion allowed beyond the first call. *)
Lemma levenshtein_distance_fuel_lev fuel s1 s2 :
  levenshtein_distance_fuel (S fuel) s1 s2
  = Some (lev (reverse s1) (reverse s2)).
Proof.
  assert (∀ fuel' s t, ¬ length s < length t →
    levenshtein_distance_fuel fuel' s t = Some (lev (reverse s) (reverse t)))
    as Hnoswap.
  { intros fuel' s t Hlen.
    pose proof (outer_loop t s []) as Hrows.
    rewrite reverse_nil, <- row_of_nil in Hrows. cbn [length app] in Hrows.
    destruct fuel'; cbn [levenshtein_distance_fuel].
    all: rewrite bool_decide_eq_false_2 by done.
    all: case_bool_decide as Ht.
    all: try (destruct t; [|done];
              by rewrite reverse_nil, lev_nil_r, length_reverse).
    all: unfold enumerate; rewrite Hrows; cbn [mbind option_bind].
    all: apply last_row_of. }
  destruct (decide (length s1 < length s2)) as [Hlt|Hge].
  - cbn [levenshtein_distance_fuel]. rewrite bool_decide_eq_true_2 by done.
    rewrite Hnoswap by lia. by rewrite lev_sym.
  - by apply Hnoswap.
Qed.

Lemma levenshtein_distance_lev s1 s2 :
  levenshtein_distance s1 s2 = Some (lev (reverse s1) (reverse s2)).
Proof. apply levenshtein_distance_fuel_lev. Qed.

(** Fuel for one nested call is enough: more fuel changes nothing. *)
Lemma levenshtein_distance_fuel_enough fuel s1 s2 :
  levenshtein_distance_fuel (S fuel) s1 s2 = levenshtein_distance s1 s2.
Proof. by rewrite levenshtein_distance_fuel_lev, levenshtein_distance_lev. Qed.

Lemma levenshtein_distance_le_max s1 s2 :
  ∃ d, levenshtein_distance s1 s2 = Some d ∧ d ≤ length s1 `max` length s2.
Proof.
  eexists. split; [apply levenshtein_distance_lev|].
  pose proof (lev_le_max (reverse s1) (reverse s2)) as Hle.
  by rewrite !length_reverse in Hle.
Qed.
End DynamicProgram.

Section StrFacts.
Context {char : Type} `{EqDecision char}.
Implicit Types q s t w : list char.

Lemma startswith_prefix p s : startswith p s = true ↔ p `prefix_of` s.
Proof.
  revert s. induction p as [|a p IH]; intros s; simpl.
  { split; [intros _; apply prefix_nil|done]. }
  destruct s as [|b s].
  { split; [done|]. intros [k Hk]. discriminate. }
  rewrite andb_true_iff, bool_decide_eq_true, IH. split.
  - intros [-> Hp]. by apply prefix_cons.
  - intros [k Hk]. simplify_eq/=. split; [done|]. by exists k.
Qed.

Lemma str_in_slice q s : str_in q s = true ↔ slice q s.
Proof.
  induction s as [|b s IH]; simpl.
  - rewrite orb_false_r, startswith_prefix. split.
    + intros [k ->]. by exists [], k.
    + intros (l & r & Hs). symmetry in Hs.
      apply app_eq_nil in Hs as [-> Hs]. apply app_eq_nil in Hs as [-> ->].
      done.
  - rewrite orb_true_iff, startswith_prefix, IH. split.
    + intros [[k ->]|(l & r & ->)]; [by exists [], k|by exists (b :: l), r].
    + intros (l & r & Hs). destruct l as [|b' l]; simpl in Hs.
      * left. by exists r.
      * right. simplify_eq. by exists l, r.
Qed.

Lemma slice_refl s : slice s s.
Proof. exists [], []. by rewrite app_nil_r. Qed.

Lemma slice_trans q w t : slice q w → slice w t → slice q t.
Proof.
  intros (l1 & r1 & ->) (l2 & r2 & ->).
  exists (l2 ++ l1), (r1 ++ r2). by rewrite <- !(assoc_L (++)).
Qed.

Lemma slice_app_l l s t : slice s t → slice s (l ++ t).
Proof. intros (l' & r & ->). exists (l ++ l'), r. by rewrite (assoc_L (++)). Qed.

Lemma slice_nil s : slice [] s.
Proof. by exists [], s. Qed.

Section Split.
Variable isspace : char → bool.

(** Every word of [s.split()] is a slice of [s] ... *)
Lemma split_from_slice s : ∀ word w,
  w ∈ split_from isspace word s → slice w (word ++ s).
Proof.
  induction s as [|c s IH]; intros word w; simpl.
  - destruct word; [by intros ?%elem_of_nil|].
    intros ->%list_elem_of_singleton. rewrite app_nil_r. apply slice_refl.
  - destruct (isspace c).
    + destruct word as [|a word].
      * intros Hw%IH. by apply (slice_app_l [c]).
      * intros [->|Hw%IH]%elem_of_cons.
        -- exists [], (c :: s). done.
        -- rewrite (cons_middle c), (assoc_L (++)). by apply slice_app_l.
    + intros Hw%IH. by rewrite <- (assoc_L (++)) in Hw.
Qed.

Lemma split_slice s w : w ∈ split isspace s → slice w s.
Proof. apply split_from_slice. Qed.

(** ... and is not empty. *)
Lemma split_from_nonempty s : ∀ word w,
  w ∈ split_from isspace word s → w ≠ [].
Proof.
  induction s as [|c s IH]; intros word w; simpl.
  - destruct word; [by intros ?%elem_of_nil|].
    by intros ->%list_elem_of_singleton.
  - destruct (isspace c).
    + destruct word as [|a word]; [by apply IH|].
      intros [->|Hw]%elem_of_cons; [done|by eapply IH].
    + intros Hw. apply IH in Hw. done.
Qed.

Lemma split_nonempty s w : w ∈ split isspace s → 0 < length w.
Proof.
  intros Hw%split_from_nonempty. destruct w; [done|simpl; lia].
Qed.

(** The test of line 49 cannot succeed once that of line 44 failed. *)
Lemma str_in_split q t :
  existsb (str_in q) (split isspace t) = true → str_in q t = true.
Proof.
  rewrite existsb_exists. intros (w & Hw%list_elem_of_In & Hq).
  apply str_in_slice. apply str_in_slice in Hq.
  eauto using slice_trans, split_slice.
Qed.
End Split.
End StrFacts.

Section Scores.
Local Open Scope Q_scope.

Lemma Qlt_bool_iff a b : Qlt_bool a b = true ↔ a < b.
Proof.
  unfold Qlt_bool. rewrite negb_true_iff, <- not_true_iff_false, Qle_bool_iff.
  split; [apply Qnot_le_lt|apply Qlt_not_le].
Qed.

Lemma Qge_bool_iff a b : Qge_bool a b = true ↔ b <= a.
Proof. apply Qle_bool_iff. Qed.

Lemma py_max_Qmax a b : py_max a b == Qmax a b.
Proof.
  unfold py_max. destruct (Qlt_bool a b) eqn:Hab.
  - apply Qlt_bool_iff, Qlt_le_weak in Hab. symmetry. by apply Q.max_r.
  - apply not_true_iff_false in Hab. rewrite Qlt_bool_iff in Hab.
    apply Qnot_lt_le in Hab. symmetry. by apply Q.max_l.
Qed.

Lemma true_div_unit d m :
  (0 < m)%nat → (d ≤ m)%nat →
  ∃ r, true_div d m = Some r ∧ unit_interval r.
Proof.
  intros Hm Hd. unfold true_div.
  rewrite bool_decide_eq_false_2 by lia. eexists. split; [done|].
  assert (0 < inject_Z (Z.of_nat m)) as Hpos.
  { rewrite <- (Zlt_Qlt 0). lia. }
  split.
  - apply Qle_shift_div_l; [done|]. rewrite Qmult_0_l.
    rewrite <- (Zle_Qle 0). lia.
  - apply Qle_shift_div_r; [done|]. rewrite Qmult_1_l.
    rewrite <- Zle_Qle. lia.
Qed.

Lemma unit_interval_complement r : unit_interval r → unit_interval (1 - r).
Proof.
  intros [H0 H1]. split.
  - unfold Qminus. rewrite <- (Qplus_opp_r r).
    apply Qplus_le_compat; [done|apply Qle_refl].
  - unfold Qminus. rewrite <- (Qplus_0_r 1) at 2.
    apply Qplus_le_compat; [apply Qle_refl|].
    rewrite <- (Qopp_involutive 0). by apply Qopp_le_compat.
Qed.
End Scores.

(** ** Rounding to binary64 *)

Section Rounding.
Local Open Scope Q_scope.
Implicit Types (x y : Q) (e : Z).

Lemma pow2_pos e : 0 < pow2 e.
Proof. apply Qpower_0_lt. lra. Qed.

Lemma pow2_add e1 e2 : pow2 (e1 + e2) == pow2 e1 * pow2 e2.
Proof. apply Qpower_plus. lra. Qed.

Lemma pow2_le e1 e2 : (e1 ≤ e2)%Z → pow2 e1 <= pow2 e2.
Proof. intros. apply Qpower_le_compat_l; [done|lra]. Qed.

Lemma pow2_lt_inv e1 e2 : pow2 e1 < pow2 e2 → (e1 < e2)%Z.
Proof.
  intros Hlt. destruct (Z.lt_ge_cases e1 e2) as [|Hge]; [done|].
  apply pow2_le in Hge. lra.
Qed.

Lemma pow2_S e : pow2 (e + 1) == 2 * pow2 e.
Proof. rewrite pow2_add. unfold pow2 at 2. simpl. lra. Qed.

Lemma pow2_Z (n : Z) : (0 ≤ n)%Z → inject_Z (2 ^ n) == pow2 n.
Proof. intros. by apply Zpower_Qpower. Qed.

(** [ilog2] is the exponent. *)
Lemma ilog2_spec x : 0 < x → pow2 (ilog2 x) <= x ∧ x < pow2 (ilog2 x + 1).
Proof.
  intros Hx. destruct x as [n d].
  assert (0 < n)%Z as Hn.
  { unfold Qlt in Hx. simpl in Hx. lia. }
  unfold ilog2. cbn [Qnum Qden].
  set (ln := Z.log2 n). set (ld := Z.log2 (Z.pos d)).
  destruct (Z.log2_spec n Hn) as [Hn1 Hn2]. fold ln in Hn1, Hn2.
  destruct (Z.log2_spec (Z.pos d) eq_refl) as [Hd1 Hd2]. fold ld in Hd1, Hd2.
  assert (0 ≤ ln)%Z as Hln by apply Z.log2_nonneg.
  assert (0 ≤ ld)%Z as Hld by apply Z.log2_nonneg.
  assert (n # d == inject_Z n / inject_Z (Z.pos d)) as Hq by apply Qmake_Qdiv.
  set (x := n # d) in *. set (dd := inject_Z (Z.pos d)) in *.
  set (nn := inject_Z n) in *.
  assert (0 < dd) as Hdpos.
  { unfold dd, Qlt. simpl. lia. }
  assert (pow2 ln <= nn) as Qn1.
  { unfold nn, dd. rewrite <- pow2_Z by done. by rewrite <- Zle_Qle. }
  assert (nn < pow2 (ln + 1)) as Qn2.
  { unfold nn, dd. rewrite <- pow2_Z by lia. by rewrite <- Zlt_Qlt. }
  assert (pow2 ld <= dd) as Qd1.
  { unfold nn, dd. rewrite <- pow2_Z by done. by rewrite <- Zle_Qle. }
  assert (dd < pow2 (ld + 1)) as Qd2.
  { unfold nn, dd. rewrite <- pow2_Z by lia. by rewrite <- Zlt_Qlt. }
  assert (x * dd == nn) as Hmul.
  { rewrite Hq. field. lra. }
  pose proof (pow2_pos ld) as Hpd.
  pose proof (pow2_pos (ln - ld)) as Hpk.
  assert (pow2 ln == pow2 (ln - ld) * pow2 ld) as Hk.
  { rewrite <- pow2_add. by replace (ln - ld + ld)%Z with ln by lia. }
  assert (x < pow2 (ln - ld + 1)) as Hup.
  { rewrite pow2_S. rewrite pow2_S, Hk in Qn2.
    apply Qnot_le_lt. intros Hle.
    assert (2 * pow2 (ln - ld) * pow2 ld <= x * dd).
    { apply Qmult_le_compat_nonneg; split; lra. }
    lra. }
  assert (pow2 (ln - ld - 1) < x) as Hlow.
  { assert (pow2 (ln - ld) == 2 * pow2 (ln - ld - 1)) as Hh.
    { rewrite <- pow2_S.
      by replace (ln - ld - 1 + 1)%Z with (ln - ld)%Z by lia. }
    rewrite pow2_S in Qd2.
    apply Qnot_le_lt. intros Hle.
    assert (x * dd
            <= pow2 (ln - ld - 1) * dd).
    { apply Qmult_le_compat_r; lra. }
    pose proof (pow2_pos (ln - ld - 1)).
    assert (pow2 (ln - ld - 1) * dd
            < pow2 (ln - ld - 1) * (2 * pow2 ld)).
    { apply Qmult_lt_l; lra. }
    rewrite Hh in Hk. lra. }
  destruct (Qle_bool (pow2 (ln - ld)) x) eqn:Hb.
  - apply Qle_bool_iff in Hb. done.
  - apply not_true_iff_false in Hb. rewrite Qle_bool_iff in Hb.
    apply Qnot_le_lt in Hb. split; [lra|].
    by replace (ln - ld - 1 + 1)%Z with (ln - ld)%Z by lia.
Qed.

Lemma ilog2_le x y : 0 < x → x <= y → (ilog2 x ≤ ilog2 y)%Z.
Proof.
  intros Hx Hxy.
  destruct (ilog2_spec x Hx) as [Hx1 _].
  destruct (ilog2_spec y) as [_ Hy2]; [lra|].
  assert (pow2 (ilog2 x) < pow2 (ilog2 y + 1)) as Hlt by lra.
  apply pow2_lt_inv in Hlt. lia.
Qed.

Lemma Qfloor_frac y : 0 <= y - inject_Z (Qfloor y) ∧ y - inject_Z (Qfloor y) < 1.
Proof.
  pose proof (Qfloor_le y). pose proof (Qlt_floor y) as Hlt.
  rewrite inject_Z_plus in Hlt. change (inject_Z 1) with 1 in Hlt. lra.
Qed.

Lemma round_half_even_bounds y :
  (Qfloor y ≤ round_half_even y ≤ Qfloor y + 1)%Z.
Proof.
  unfold round_half_even.
  destruct (_ ?= _); [destruct (Z.even _)|..]; lia.
Qed.

Lemma round_half_even_Z (n : Z) : round_half_even (inject_Z n) = n.
Proof.
  unfold round_half_even. rewrite Qfloor_Z.
  destruct (Qcompare_spec (inject_Z n - inject_Z n) (1 # 2)) as [He|Hl|Hg];
    [lra|done|lra].
Qed.

Lemma round_half_even_mono x y :
  x <= y → (round_half_even x ≤ round_half_even y)%Z.
Proof.
  intros Hxy. pose proof (Qfloor_resp_le _ _ Hxy) as Hf.
  destruct (Z.eq_dec (Qfloor x) (Qfloor y)) as [Heq|Hne].
  - unfold round_half_even. rewrite Heq.
    destruct (Qcompare_spec (x - inject_Z (Qfloor y)) (1 # 2));
      destruct (Qcompare_spec (y - inject_Z (Qfloor y)) (1 # 2));
      try destruct (Z.even _); try lia; lra.
  - pose proof (round_half_even_bounds x).
    pose proof (round_half_even_bounds y). lia.
Qed.

(** [round_half_even] is within a half of its argument. *)
Lemma round_half_even_near y :
  - (1 # 2) <= inject_Z (round_half_even y) - y <= 1 # 2.
Proof.
  destruct (Qfloor_frac y) as [H0 H1]. unfold round_half_even.
  destruct (Qcompare_spec (y - inject_Z (Qfloor y)) (1 # 2));
    try destruct (Z.even _); rewrite ?inject_Z_plus;
    change (inject_Z 1) with 1; split; lra.
Qed.

Lemma binary64_pos_nonneg x : 0 < x → 0 <= binary64_pos x.
Proof.
  intros Hx. unfold binary64_pos.
  set (u := pow2 _).
  pose proof (pow2_pos (Z.max (ilog2 x) (-1022) - 52)) as Hu. fold u in Hu.
  apply Qmult_le_0_compat; [|lra].
  change 0 with (inject_Z 0). rewrite <- Zle_Qle.
  rewrite <- (round_half_even_Z 0). apply round_half_even_mono.
  change (inject_Z 0) with 0. apply Qle_shift_div_l; lra.
Qed.

(** [binary64] is within half a unit in the last place of its
    argument. *)
Lemma binary64_pos_near x :
  0 < x →
  let ulp := pow2 (Z.max (ilog2 x) (-1022) - 52) in
  - (ulp / 2) <= binary64_pos x - x ∧ binary64_pos x - x <= ulp / 2.
Proof.
  intros Hx ulp. unfold binary64_pos. fold ulp.
  pose proof (pow2_pos (Z.max (ilog2 x) (-1022) - 52)) as Hulp.
  fold ulp in Hulp.
  destruct (round_half_even_near (x / ulp)) as [Hlow Hhigh].
  set (n := inject_Z (round_half_even (x / ulp))) in *.
  assert ((n - x / ulp) * ulp == n * ulp - x) as Hx' by (field; lra).
  apply (Qmult_le_compat_r _ _ ulp) in Hlow; [|lra].
  apply (Qmult_le_compat_r _ _ ulp) in Hhigh; [|lra].
  rewrite Hx' in Hlow, Hhigh. clearbody n ulp.
  assert (ulp / 2 == (1 # 2) * ulp) as -> by (field; lra). split; lra.
Qed.

Lemma binary64_pos_mono x y : 0 < x → x <= y → binary64_pos x <= binary64_pos y.
Proof.
  intros Hx Hxy. assert (0 < y) as Hy by lra.
  pose proof (ilog2_le x y Hx Hxy) as Hlog.
  destruct (ilog2_spec x Hx) as [_ Hx2].
  destruct (ilog2_spec y Hy) as [Hy1 _].
  unfold binary64_pos.
  set (ex := Z.max (ilog2 x) (-1022)). set (ey := Z.max (ilog2 y) (-1022)).
  pose proof (pow2_pos (ex - 52)) as Hux.
  pose proof (pow2_pos (ey - 52)) as Huy.
  destruct (Z.eq_dec ex ey) as [Heq|Hne].
  - rewrite Heq in *. apply Qmult_le_compat_r; [|lra].
    rewrite <- Zle_Qle. apply round_half_even_mono.
    apply Qmult_le_compat_r; [done|].
    apply Qlt_le_weak, Qinv_lt_0_compat. lra.
  - assert (ex < ey)%Z as Hlt by lia.
    assert (ey = ilog2 y) as Hey by lia.
    apply Qle_trans with (pow2 ey).
    + apply Qle_trans with (pow2 (ex + 1)); [|apply pow2_le; lia].
      assert (pow2 (ex + 1) == inject_Z (2 ^ 53) * pow2 (ex - 52)) as ->.
      { rewrite pow2_Z by done. rewrite <- pow2_add.
        by replace (53 + (ex - 52))%Z with (ex + 1)%Z by lia. }
      apply Qmult_le_compat_r; [|lra]. rewrite <- Zle_Qle.
      rewrite <- (round_half_even_Z (2 ^ 53)). apply round_half_even_mono.
      apply Qle_shift_div_r; [lra|].
      rewrite pow2_Z by done. rewrite <- pow2_add.
      replace (53 + (ex - 52))%Z with (ex + 1)%Z by lia.
      apply Qle_trans with (pow2 (ilog2 x + 1)); [lra|]. apply pow2_le. lia.
    + assert (pow2 ey == inject_Z (2 ^ 52) * pow2 (ey - 52)) as Hpe.
      { rewrite pow2_Z by done. rewrite <- pow2_add.
        by replace (52 + (ey - 52))%Z with ey by lia. }
      rewrite Hpe at 1.
      apply Qmult_le_compat_r; [|lra]. rewrite <- Zle_Qle.
      rewrite <- (round_half_even_Z (2 ^ 52)). apply round_half_even_mono.
      apply Qle_shift_div_l; [lra|]. rewrite <- Hpe. by rewrite Hey.
Qed.

Lemma binary64_pos_val x : 0 < x → binary64 x = binary64_pos x.
Proof. intros Hx. unfold binary64. destruct (Qcompare_spec x 0); [lra|lra|done]. Qed.

Lemma binary64_neg_val x : x < 0 → binary64 x = - binary64_pos (- x).
Proof. intros Hx. unfold binary64. destruct (Qcompare_spec x 0); [lra|done|lra]. Qed.

Lemma binary64_zero_val x : x == 0 → binary64 x = 0.
Proof. intros Hx. unfold binary64. destruct (Qcompare_spec x 0); [done|lra|lra]. Qed.

(** Rounding keeps the order of two numbers: it can make them equal,
    never swap them. *)
Lemma binary64_mono x y : x <= y → binary64 x <= binary64 y.
Proof.
  intros Hxy.
  destruct (Q_dec x 0) as [[Hx|Hx]|Hx]; destruct (Q_dec y 0) as [[Hy|Hy]|Hy];
    rewrite ?(binary64_pos_val x), ?(binary64_neg_val x),
      ?(binary64_zero_val x), ?(binary64_pos_val y), ?(binary64_neg_val y),
      ?(binary64_zero_val y) by done;
    try lra.
  - apply Qopp_le_compat, binary64_pos_mono; lra.
  - pose proof (binary64_pos_nonneg (- x)). pose proof (binary64_pos_nonneg y). lra.
  - pose proof (binary64_pos_nonneg (- x)). lra.
  - by apply binary64_pos_mono.
  - pose proof (binary64_pos_nonneg y). lra.
Qed.

Lemma binary64_nonneg x : 0 <= x → 0 <= binary64 x.
Proof. intros Hx. change 0 with (binary64 0) at 1. by apply binary64_mono. Qed.

Lemma binary64_1 : binary64 1 == 1.
Proof. vm_compute. reflexivity. Qed.

Lemma binary64_unit x : unit_interval x → unit_interval (binary64 x).
Proof.
  intros [H0 H1]. split; [by apply binary64_nonneg|].
  rewrite <- binary64_1. by apply binary64_mono.
Qed.

(** The greatest binary64 number below 1, and its distance to 1. *)
Lemma binary64_pred_1 : binary64 (1 - pow2 (-53)) == 1 - pow2 (-53).
Proof. vm_compute. reflexivity. Qed.

Lemma binary64_half_ulp : binary64 (pow2 (-53)) == pow2 (-53).
Proof. vm_compute. reflexivity. Qed.

(** The literal 0.7 of line 71, rounded, is below 3/4. *)
Lemma binary64_0_7 : 0 <= binary64 0.7 ∧ binary64 0.7 <= 3 # 4.
Proof. split; vm_compute; discriminate. Qed.

Lemma binary64_3_4 : binary64 (3 # 4) == 3 # 4.
Proof. vm_compute. reflexivity. Qed.
End Rounding.

Section FuzzyMatchFacts.
Context {char : Type} `{EqDecision char}.
Variables (isspace : char → bool) (lower : list char → list char).
Implicit Types query text word : list char.
Local Open Scope Q_scope.

(** Lines 54-59 never raise on a word of [split], and keep
    [max_score] a score. *)
Lemma word_step_unit query max_score word :
  (0 < length word)%nat → unit_interval max_score →
  ∃ max_score', word_step query max_score word = Some max_score'
                ∧ unit_interval max_score'.
Proof.
  intros Hword Hmax. unfold word_step. case_bool_decide; [|eauto].
  destruct (levenshtein_distance_le_max query word) as (d & -> & Hd).
  cbn [mbind option_bind].
  destruct (true_div_unit d (length query `max` length word))
    as (r & -> & Hr); [lia|done|].
  cbn [mbind option_bind]. eexists. split; [done|].
  destruct (Qlt_bool max_score (1 - r)); [|done].
  by apply unit_interval_complement.
Qed.

Lemma words_loop_unit query text :
  ∃ max_score,
    for_each (word_step query) (split isspace text) 0 = Some max_score
    ∧ unit_interval max_score.
Proof.
  apply for_each_invariant; [done|].
  intros max_score word Hword%split_nonempty Hmax.
  by apply word_step_unit.
Qed.

Lemma fuzzy_match_exit_post query text threshold :
  ∃ e v, fuzzy_match_exit isspace lower query text threshold = Some (e, v)
         ∧ unit_interval v ∧ exit_post lower query text threshold e v.
Proof.
  unfold fuzzy_match_exit.
  destruct (str_in (lower query) (lower text)) eqn:Hin.
  { exists Line45, 1. apply str_in_slice in Hin. by repeat split. }
  assert (¬ slice (lower query) (lower text)) as Hnot.
  { rewrite <- str_in_slice. congruence. }
  destruct (existsb _ _) eqn:Hword.
  { apply str_in_split in Hword. congruence. }
  destruct (words_loop_unit (lower query) (lower text))
    as (max_score & -> & Hmax).
  cbn [mbind option_bind].
  destruct (Qge_bool max_score (1 - threshold)) eqn:Hge.
  - exists Line62, max_score. apply Qge_bool_iff in Hge.
    repeat (split; [done|]). done.
  - exists Line63, 0. repeat (split; [done|]). done.
Qed.

Lemma fuzzy_match_post query text threshold :
  ∃ e v, fuzzy_match isspace lower query text threshold = Some v
         ∧ unit_interval v ∧ exit_post lower query text threshold e v.
Proof.
  destruct (fuzzy_match_exit_post query text threshold) as (e & v & He & ?).
  exists e, v. unfold fuzzy_match. by rewrite He.
Qed.
End FuzzyMatchFacts.

Section FuzzyMatchBinary64Facts.
Context {char : Type} `{EqDecision char}.
Variables (isspace : char → bool) (lower : list char → list char).
Implicit Types query text word : list char.
Local Open Scope Q_scope.

(** Lines 54-59 in binary64 never raise on a word of [split], and keep
    [max_score] a score. *)
Lemma word_step_b64_unit query max_score word :
  (0 < length word)%nat → unit_interval max_score →
  ∃ max_score', word_step_b64 query max_score word = Some max_score'
                ∧ unit_interval max_score'.
Proof.
  intros Hword Hmax. unfold word_step_b64. case_bool_decide; [|eauto].
  destruct (levenshtein_distance_le_max query word) as (d & -> & Hd).
  cbn [mbind option_bind].
  destruct (true_div_unit d (length query `max` length word))
    as (r & -> & Hr); [lia|done|].
  cbn [mbind option_bind]. eexists. split; [done|].
  destruct (Qlt_bool max_score _); [|done].
  by apply binary64_unit, unit_interval_complement, binary64_unit.
Qed.

Lemma words_loop_b64_unit query text :
  ∃ max_score,
    for_each (word_step_b64 query) (split isspace text) 0 = Some max_score
    ∧ unit_interval max_score.
Proof.
  apply for_each_invariant; [done|].
  intros max_score word Hword%split_nonempty Hmax.
  by apply word_step_b64_unit.
Qed.

(** [fuzzy_match] in binary64 returns a score, ... *)
Lemma fuzzy_match_b64_post query text threshold :
  ∃ v, fuzzy_match_b64 isspace lower query text threshold = Some v
       ∧ unit_interval v.
Proof.
  unfold fuzzy_match_b64.
  destruct (str_in (lower query) (lower text)); [by exists 1|].
  destruct (existsb _ _).
  { eexists. split; [done|]. by apply binary64_unit. }
  destruct (words_loop_b64_unit (lower query) (lower text))
    as (max_score & -> & Hmax).
  cbn [mbind option_bind]. destruct (Qge_bool _ _); eauto.
  by exists 0.
Qed.

(** ... which is 1.0 when the query is a slice of the text. *)
Lemma fuzzy_match_b64_slice query text threshold :
  slice (lower query) (lower text) →
  fuzzy_match_b64 isspace lower query text threshold = Some 1.
Proof.
  intros Hin%str_in_slice. unfold fuzzy_match_b64. by rewrite Hin.
Qed.
End FuzzyMatchBinary64Facts.

Lemma sort_reverse_cons {A} (key : A → Q) x l :
  sort_reverse key (x :: l) = insert_reverse key x (sort_reverse key l).
Proof. reflexivity. Qed.

Section SortFacts.
Context {A : Type} (key : A → Q).
Implicit Types l : list A.
Local Open Scope Q_scope.

Lemma insert_reverse_perm x l : insert_reverse key x l ≡ₚ x :: l.
Proof.
  induction l as [|y l IH]; simpl; [done|].
  destruct (Qlt_bool (key x) (key y)); [|done].
  rewrite IH. apply Permutation_swap.
Qed.

Lemma sort_reverse_perm l : sort_reverse key l ≡ₚ l.
Proof.
  induction l as [|x l IH]; simpl; [done|].
  by rewrite insert_reverse_perm, IH.
Qed.

Lemma insert_reverse_sorted x l :
  StronglySorted (descending key) l →
  StronglySorted (descending key) (insert_reverse key x l).
Proof.
  induction 1 as [|y l Hl IH Hy]; simpl.
  { repeat constructor. }
  destruct (Qlt_bool (key x) (key y)) eqn:Hxy.
  - apply Qlt_bool_iff, Qlt_le_weak in Hxy.
    constructor; [done|]. rewrite insert_reverse_perm. by constructor.
  - apply not_true_iff_false in Hxy. rewrite Qlt_bool_iff in Hxy.
    apply Qnot_lt_le in Hxy.
    constructor; [by constructor|]. constructor; [done|].
    eapply Forall_impl; [done|]. intros z Hz. unfold descending in *.
    by eapply Qle_trans.
Qed.

Lemma sort_reverse_sorted l : StronglySorted (descending key) (sort_reverse key l).
Proof.
  induction l as [|x l IH]; simpl; [constructor|].
  by apply insert_reverse_sorted.
Qed.

(** Insertion moves [x] past strictly greater keys only, so it keeps the
    order of any class of elements none of which is strictly greater
    than another. *)
Lemma insert_reverse_filter (P : A → Prop) `{∀ a, Decision (P a)} x l :
  (∀ a b, P a → P b → ¬ key a < key b) →
  filter P (insert_reverse key x l) = filter P (x :: l).
Proof.
  intros HP. induction l as [|y l IH]; simpl; [done|].
  destruct (Qlt_bool (key x) (key y)) eqn:Hxy; [|done].
  apply Qlt_bool_iff in Hxy.
  rewrite (filter_cons _ y), IH, !(filter_cons _ x), (filter_cons _ y).
  repeat case_decide; try done. by destruct (HP x y).
Qed.

Lemma sort_reverse_filter (P : A → Prop) `{∀ a, Decision (P a)} l :
  (∀ a b, P a → P b → ¬ key a < key b) →
  filter P (sort_reverse key l) = filter P l.
Proof.
  intros HP. induction l as [|x l IH]; simpl; [done|].
  rewrite insert_reverse_filter by done.
  by rewrite !(filter_cons _ x), IH.
Qed.

(** A stable sort has one possible result: two descending lists with the
    same elements of each key, in the same order, are equal.  So any
    stable sort, the interpreter's included, returns what [sort_reverse]
    returns. *)
Lemma stable_descending_unique l1 : ∀ l2,
  StronglySorted (descending key) l1 →
  StronglySorted (descending key) l2 →
  (∀ v, filter (λ a, key a == v) l1 = filter (λ a, key a == v) l2) →
  l1 = l2.
Proof.
  assert (∀ x l l', StronglySorted (descending key) (x :: l) →
            filter (λ a, key a == key x) (x :: l)
            = filter (λ a, key a == key x) l' →
            ∃ y, y ∈ l' ∧ key y == key x) as Hfind.
  { intros x l l' _ Hf. rewrite filter_cons_True in Hf by reflexivity.
    assert (x ∈ filter (λ a, key a == key x) l') as Hx
      by (rewrite <- Hf; left).
    apply list_elem_of_filter in Hx as [_ Hx]. exists x. by split. }
  induction l1 as [|x l1 IH]; intros l2 Hs1 Hs2 Hf.
  { destruct l2 as [|y l2]; [done|].
    specialize (Hf (key y)).
    rewrite filter_nil, filter_cons_True in Hf by reflexivity. done. }
  destruct l2 as [|y l2].
  { specialize (Hf (key x)).
    rewrite filter_nil, filter_cons_True in Hf by reflexivity. done. }
  assert (key x == key y) as Hxy.
  { apply Qle_antisym.
    - destruct (Hfind x l1 (y :: l2) Hs1 (Hf (key x))) as (z & Hz & <-).
      apply elem_of_cons in Hz as [->|Hz]; [apply Qle_refl|].
      apply StronglySorted_inv in Hs2 as [_ Hy].
      by apply (proj1 (Forall_forall _ _) Hy).
    - destruct (Hfind y l2 (x :: l1) Hs2 (eq_sym (Hf (key y))))
        as (z & Hz & <-).
      apply elem_of_cons in Hz as [->|Hz]; [apply Qle_refl|].
      apply StronglySorted_inv in Hs1 as [_ Hx].
      by apply (proj1 (Forall_forall _ _) Hx). }
  pose proof (Hf (key x)) as Hhead.
  rewrite !filter_cons_True in Hhead by (done || reflexivity).
  injection Hhead as <- Htail.
  f_equal. apply StronglySorted_inv in Hs1 as [Hs1 _].
  apply StronglySorted_inv in Hs2 as [Hs2 _].
  apply IH; [done..|]. intros v. specialize (Hf v).
  rewrite !(filter_cons _ x) in Hf. by case_decide; simplify_eq.
Qed.

Lemma sort_reverse_unique l l' :
  StronglySorted (descending key) l' →
  (∀ v, filter (λ a, key a == v) l' = filter (λ a, key a == v) l) →
  l' = sort_reverse key l.
Proof.
  intros Hsorted Hstable.
  apply stable_descending_unique; [done|apply sort_reverse_sorted|].
  intros v. rewrite Hstable. symmetry. apply sort_reverse_filter.
  intros a b Ha Hb Hlt. rewrite Ha, Hb in Hlt. by apply Qlt_irrefl in Hlt.
Qed.

Lemma insert_reverse_pairs x l :
  insert_reverse snd (x, key x) ((λ y, (y, key y)) <$> l)
  = (λ y, (y, key y)) <$> insert_reverse key x l.
Proof.
  induction l as [|y l IH]; csimpl; [done|].
  destruct (Qlt_bool (key x) (key y)); csimpl; [by rewrite IH|done].
Qed.

(** Sorting the pairs [(x, key x)] on their second component and
    dropping it (lines 76-77) sorts the [x]s on [key]. *)
Lemma sort_reverse_pairs l :
  fst <$> sort_reverse snd ((λ x, (x, key x)) <$> l) = sort_reverse key l.
Proof.
  assert (sort_reverse snd ((λ x, (x, key x)) <$> l)
          = (λ x, (x, key x)) <$> sort_reverse key l) as ->.
  { induction l as [|x l IH]; [done|].
    by rewrite fmap_cons, !sort_reverse_cons, IH, insert_reverse_pairs. }
  rewrite <- list_fmap_compose. apply list_fmap_id.
Qed.
End SortFacts.

Section SearchFacts.
Context {char : Type} `{EqDecision char}.
Variables (isspace : char → bool) (lower : list char → list char).
Context {group : Type}.
Variables (name : group → list char) (description : group → option (list char)).
Implicit Types (query : list char) (threshold : Q) (g : group).
Local Open Scope Q_scope.

Local Abbreviation total := (total_score isspace lower name description).
Local Abbreviation agg := (aggregate isspace lower name description).
Local Abbreviation agg64 := (aggregate_b64 isspace lower name description).
Local Abbreviation search := (fuzzy_search isspace lower name description).

(** Lines 69-71 never raise, and give a score. *)
Lemma total_score_aggregate query threshold g :
  total query threshold g = Some (agg query threshold g)
  ∧ unit_interval (agg query threshold g).
Proof.
  unfold aggregate, total_score.
  destruct (fuzzy_match_post isspace lower query (name g) threshold)
    as (e1 & n & -> & [Hn0 Hn1] & _).
  destruct (fuzzy_match_post isspace lower query
              (default [] (description g)) threshold)
    as (e2 & d & -> & [Hd0 Hd1] & _).
  cbn [mbind option_bind default from_option id]. split; [done|].
  unfold py_max. destruct (Qlt_bool n (d * 0.7)); split; lra.
Qed.

(** The product of line 71 in binary64 stays below 3/4. *)
Lemma description_share d :
  unit_interval d →
  0 <= binary64 (d * binary64 0.7) ∧ binary64 (d * binary64 0.7) <= 3 # 4.
Proof.
  intros [Hd0 Hd1]. destruct binary64_0_7 as [H0 H1].
  assert (0 <= d * binary64 0.7) by by apply Qmult_le_0_compat.
  assert (d * binary64 0.7 <= 1 * binary64 0.7)
    by by apply Qmult_le_compat_r.
  split; [by apply binary64_nonneg|].
  rewrite <- binary64_3_4. apply binary64_mono. lra.
Qed.

(** So do lines 69-71 in binary64. *)
Lemma total_score_b64_aggregate query threshold g :
  total_score_b64 isspace lower name description query threshold g
  = Some (agg64 query threshold g)
  ∧ unit_interval (agg64 query threshold g).
Proof.
  unfold aggregate_b64, total_score_b64.
  destruct (fuzzy_match_b64_post isspace lower query (name g) threshold)
    as (n & -> & [Hn0 Hn1]).
  destruct (fuzzy_match_b64_post isspace lower query
              (default [] (description g)) threshold)
    as (d & -> & Hd).
  cbn [mbind option_bind default from_option id]. split; [done|].
  destruct (description_share d Hd) as [H0 H1].
  unfold py_max. destruct (Qlt_bool n _); split; lra.
Qed.

Lemma search_step_aggregate query threshold results g :
  search_step isspace lower name description query threshold results g
  = Some (if Qlt_bool 0 (agg64 query threshold g)
          then results ++ [(g, agg64 query threshold g)] else results).
Proof.
  unfold search_step.
  by destruct (total_score_b64_aggregate query threshold g) as [-> _].
Qed.

(** Lines 68-74: the loop appends, in order, the groups with a positive
    total, each with its total. *)
Lemma results_loop query threshold groups : ∀ results,
  for_each (search_step isspace lower name description query threshold)
    groups results
  = Some (results
          ++ ((λ g, (g, agg64 query threshold g))
              <$> filter (λ g, 0 < agg64 query threshold g) groups)).
Proof.
  induction groups as [|g groups IH]; intros results.
  { cbn [for_each]. by rewrite filter_nil, fmap_nil, app_nil_r. }
  cbn [for_each]. rewrite search_step_aggregate.
  cbn [mbind option_bind]. rewrite IH, filter_cons.
  destruct (Qlt_bool 0 (agg64 query threshold g)) eqn:Hpos.
  - apply Qlt_bool_iff in Hpos. rewrite decide_True by done.
    by rewrite fmap_cons, <- (assoc_L (++)).
  - apply not_true_iff_false in Hpos. rewrite Qlt_bool_iff in Hpos.
    by rewrite decide_False by done.
Qed.

(** [fuzzy_search] keeps the groups with a positive total and sorts them
    on it. *)
Lemma fuzzy_search_sort query groups threshold :
  search query groups threshold
  = Some (sort_reverse (agg64 query threshold)
            (filter (λ g, 0 < agg64 query threshold g) groups)).
Proof.
  unfold fuzzy_search. rewrite results_loop. cbn [mbind option_bind app].
  by rewrite (sort_reverse_pairs (agg64 query threshold)).
Qed.

Lemma aggregate_pos_iff query threshold g :
  0 < agg query threshold g ↔ ¬ agg query threshold g == 0.
Proof.
  destruct (total_score_aggregate query threshold g) as [_ [H0 _]].
  split.
  - intros Hlt Heq. rewrite Heq in Hlt. by apply Qlt_irrefl in Hlt.
  - intros Hne. apply Qle_lt_or_eq in H0 as [?|Heq]; [done|].
    destruct Hne. by symmetry.
Qed.

Lemma aggregate_b64_pos_iff query threshold g :
  0 < agg64 query threshold g ↔ ¬ agg64 query threshold g == 0.
Proof.
  destruct (total_score_b64_aggregate query threshold g) as [_ [H0 _]].
  split.
  - intros Hlt Heq. rewrite Heq in Hlt. by apply Qlt_irrefl in Hlt.
  - intros Hne. apply Qle_lt_or_eq in H0 as [?|Heq]; [done|].
    destruct Hne. by symmetry.
Qed.
End SearchFacts.

(** * The specification's claims *)

Section Claims.
Context {char : Type} `{EqDecision char}.
Variables (isspace : char → bool) (lower : list char → list char).
Context {group : Type}.
Variables (name : group → list char) (description : group → option (list char)).
Local Open Scope Q_scope.

(** C2: for every query, text and threshold, [fuzzy_match] never returns
    from line 50 (the 0.9 of the token shortcut).  Every word of
    [text.split()] is a slice of the folded text, so a query found in a
    word is found in the text and line 45 has returned 1.0 before the
    loop of lines 48-50 is reached; the function does return, from one
    of the three other lines. *)
Theorem fuzzy_match_line50_unreachable
    (query text : list char) (threshold : Q) :
  (∀ word, word ∈ split isspace (lower text) → slice word (lower text))
  ∧ ((∃ word, word ∈ split isspace (lower text)
              ∧ slice (lower query) word) →
     fuzzy_match_exit isspace lower query text threshold
     = Some (Line45, 1))
  ∧ (∃ e v, fuzzy_match_exit isspace lower query text threshold
            = Some (e, v) ∧ e ≠ Line50).
Proof.
  split; [|split].
  - intros word. apply split_slice.
  - intros (word & Hword & Hquery).
    assert (str_in (lower query) (lower text) = true) as Hin.
    { apply str_in_slice. eauto using slice_trans, split_slice. }
    unfold fuzzy_match_exit. by rewrite Hin.
  - destruct (fuzzy_match_exit_post isspace lower query text threshold)
      as (e & v & He & _ & Hpost).
    exists e, v. split; [done|]. by intros ->.
Qed.

(** C3: for every query, threshold and list of groups, [fuzzy_search]
    returns the groups sorted on their aggregate score, greatest first,
    and stably: for every score [v], the returned groups of score [v]
    are the retained input groups of score [v], in their input order.
    The score is the total of lines 69-71 as the machine holds it, a
    binary64 number ([total_score_b64]): this is the key that line 76
    sorts on, and two totals that are equal as rationals need not be
    equal as floats. *)
Theorem fuzzy_search_sorted_stable
    (query : list char) (groups : list group) (threshold : Q) :
  ∃ out,
    fuzzy_search isspace lower name description query groups threshold
    = Some out
    ∧ (∀ g, total_score_b64 isspace lower name description
              query threshold g
            = Some (aggregate_b64 isspace lower name description
                      query threshold g))
    ∧ StronglySorted
        (descending (aggregate_b64 isspace lower name description
                       query threshold))
        out
    ∧ ∀ v : Q,
        filter (λ g, aggregate_b64 isspace lower name description
                       query threshold g == v) out
        = filter (λ g, aggregate_b64 isspace lower name description
                         query threshold g == v)
            (filter (λ g, 0 < aggregate_b64 isspace lower name description
                                query threshold g) groups).
Proof.
  eexists. split; [apply fuzzy_search_sort|]. split; [|split].
  - intros g. apply total_score_b64_aggregate.
  - apply sort_reverse_sorted.
  - intros v. apply sort_reverse_filter.
    intros a b Ha Hb Hlt. rewrite Ha, Hb in Hlt. by apply Qlt_irrefl in Hlt.
Qed.


(** C5: for every query, threshold and list of groups, a group is in
    the result of [fuzzy_search] if and only if it is in the input and
    its aggregate score (the total that lines 69-71 compute, a binary64
    number) is not 0. *)
Theorem fuzzy_search_keeps_nonzero
    (query : list char) (groups : list group) (threshold : Q) :
  ∃ out,
    fuzzy_search isspace lower name description query groups threshold
    = Some out
    ∧ (∀ g, total_score_b64 isspace lower name description
              query threshold g
            = Some (aggregate_b64 isspace lower name description
                      query threshold g))
    ∧ ∀ g, g ∈ out
           ↔ g ∈ groups
             ∧ ¬ aggregate_b64 isspace lower name description
                   query threshold g == 0.
Proof.
  eexists. split; [apply fuzzy_search_sort|]. split.
  - intros g. apply total_score_b64_aggregate.
  - intros g. rewrite sort_reverse_perm, list_elem_of_filter.
    rewrite aggregate_b64_pos_iff. tauto.
Qed.

(** C6: for every query, text and threshold, if the folded query is a
    slice of the whole folded text then [fuzzy_match] returns exactly
    1.0; so does the empty query on every text, as folding the empty
    string gives the empty string. *)
Theorem fuzzy_match_whole_text (query text : list char) (threshold : Q) :
  (slice (lower query) (lower text) →
   fuzzy_match isspace lower query text threshold = Some 1)
  ∧ (lower [] = [] →
     fuzzy_match isspace lower [] text threshold = Some 1).
Proof.
  assert (∀ q, slice (lower q) (lower text) →
               fuzzy_match isspace lower q text threshold = Some 1) as Hin.
  { intros q Hq%str_in_slice. unfold fuzzy_match, fuzzy_match_exit.
    by rewrite Hq. }
  split; [apply Hin|]. intros Hnil. apply Hin. rewrite Hnil. apply slice_nil.
Qed.

(** C7: the edit distance satisfies the triangle inequality: for all
    strings a, b, c the three calls return and
    distance(a,c) <= distance(a,b) + distance(b,c). *)
Theorem levenshtein_distance_triangle (a b c : list char) :
  ∃ dac dab dbc,
    levenshtein_distance a c = Some dac
    ∧ levenshtein_distance a b = Some dab
    ∧ levenshtein_distance b c = Some dbc
    ∧ (dac ≤ dab + dbc)%nat.
Proof.
  do 3 eexists. rewrite !levenshtein_distance_lev.
  repeat (split; [done|]). apply lev_triangle.
Qed.

(** The distance that [levenshtein_distance] returns is the least number
    of single-character insertions, deletions and substitutions that
    turn [a] into [b]. *)
Theorem levenshtein_distance_minimal (a b : list char) :
  ∃ d, levenshtein_distance a b = Some d
       ∧ edit a b d
       ∧ ∀ n, edit a b n → (d ≤ n)%nat.
Proof.
  eexists. split; [apply levenshtein_distance_lev|]. split.
  - rewrite <- (reverse_involutive a), <- (reverse_involutive b) at 1.
    apply edit_reverse, edit_lev.
  - intros n Hn. by apply lev_le_edit, edit_reverse.
Qed.

(** distance(a, a) = 0. *)
Theorem levenshtein_distance_self (a : list char) :
  levenshtein_distance a a = Some 0%nat.
Proof.
  rewrite levenshtein_distance_lev. f_equal.
  apply Nat.le_0_r, lev_le_edit, edit_refl.
Qed.

(** distance(a, b) = distance(b, a). *)
Theorem levenshtein_distance_symmetric (a b : list char) :
  levenshtein_distance a b = levenshtein_distance b a.
Proof. by rewrite !levenshtein_distance_lev, lev_sym. Qed.

(** distance("", s) = length(s). *)
Theorem levenshtein_distance_empty (s : list char) :
  levenshtein_distance [] s = Some (length s).
Proof.
  rewrite levenshtein_distance_lev, reverse_nil. simpl.
  by rewrite length_reverse.
Qed.

(** C8: for every query, text and threshold, [fuzzy_match] returns (no
    exception, whatever the threshold) a value in [0, 1].  In
    particular, for a word that is not empty, the distance of line 55 is
    at most [max_len], the division of line 57 is defined and the ratio
    [1 - distance / max_len] is not negative. *)
Theorem fuzzy_match_unit_interval (query text : list char) (threshold : Q) :
  (∃ v, fuzzy_match isspace lower query text threshold = Some v
        ∧ 0 <= v ∧ v <= 1)
  ∧ (∀ word : list char, (0 < length word)%nat →
       ∃ distance ratio,
         levenshtein_distance (lower query) word = Some distance
         ∧ (distance ≤ length (lower query) `max` length word)%nat
         ∧ true_div distance (length (lower query) `max` length word)
           = Some ratio
         ∧ 0 <= 1 - ratio ∧ 1 - ratio <= 1).
Proof.
  split.
  - destruct (fuzzy_match_post isspace lower query text threshold)
      as (e & v & Hv & [H0 H1] & _). eauto.
  - intros word Hword.
    destruct (levenshtein_distance_le_max (lower query) word)
      as (d & Hd & Hle).
    destruct (true_div_unit d (length (lower query) `max` length word))
      as (r & Hr & Hunit); [lia|done|].
    apply unit_interval_complement in Hunit as [H0 H1].
    exists d, r. by repeat (split; [done|]).
Qed.


(** C10: for every query, threshold and list of groups, the result of
    [fuzzy_search] is a rearrangement of the input groups whose aggregate
    score (the binary64 total) is positive, each as often as it occurs
    among them: every returned group is an input group, and the result
    is not longer than the input. *)
Theorem fuzzy_search_permutation
    (query : list char) (groups : list group) (threshold : Q) :
  ∃ out,
    fuzzy_search isspace lower name description query groups threshold
    = Some out
    ∧ out ≡ₚ filter (λ g, 0 < aggregate_b64 isspace lower name description
                               query threshold g) groups
    ∧ (∀ g, g ∈ out → g ∈ groups)
    ∧ (length out ≤ length groups)%nat.
Proof.
  eexists. split; [apply fuzzy_search_sort|]. split; [|split].
  - apply sort_reverse_perm.
  - intros g. rewrite sort_reverse_perm, list_elem_of_filter. tauto.
  - rewrite sort_reverse_perm. apply length_filter.
Qed.
End Claims.

(** * Scenarios on 7-bit text *)

Section Scenarios.
Import Ascii7.
Local Open Scope Q_scope.

Example levenshtein_kitten_sitting :
  levenshtein_distance (text "kitten") (text "sitting") = Some 3%nat.
Proof. vm_compute. reflexivity. Qed.

Example levenshtein_swapped_arguments :
  levenshtein_distance (text "sitting") (text "kitten") = Some 3%nat
  ∧ levenshtein_distance_fuel 0 (text "kitten") (text "sitting") = None.
Proof. split; vm_compute; reflexivity. Qed.

Example score_a_cat_store : score "cat" "a cat store" 0.3 = Some 1.
Proof. vm_compute. reflexivity. Qed.

Example score_wrold : score "wrold" "hello world" 0.3 = Some 0.
Proof. vm_compute. reflexivity. Qed.

Example score_wrld :
  ∃ v, score "wrld" "hello world" 0.3 = Some v ∧ v == 0.8.
Proof. eexists. split; [vm_compute; reflexivity|reflexivity]. Qed.

Example score_xyz : score "xyz" "completely different text" 0.3 = Some 0.
Proof. vm_compute. reflexivity. Qed.

Example rank_soccer :
  rank "soccer" [book_club; soccer_fans] 0.3 = Some [soccer_fans; book_club].
Proof. vm_compute. reflexivity. Qed.

(** In binary64 as in the rationals, the bound [1 - threshold] of line 61
    is, for the default threshold, the number written 0.7, and a word at
    distance 3 of 10 characters reaches it. *)
#[local] Set Warnings "-inexact-float".
Example binary64_default_bound :
  (1 - 0.3 =? 0.7)%float = true ∧ (1 - 3 / 10 =? 0.7)%float = true.
Proof. split; vm_compute; reflexivity. Qed.

(** [binary64] against the floats of the machine: the literals of the
    code, and for every [max_len] up to 64 and every distance, the score
    of line 57 and its product with 0.7 of line 71. *)
Example binary64_literals :
  same_number 0.9 (binary64 0.9) = true
  ∧ same_number 0.7 (binary64 0.7) = true
  ∧ same_number 0.3 (binary64 0.3) = true
  ∧ same_number (1 - 0.3) (binary64 (1 - binary64 0.3)) = true.
Proof. repeat split; vm_compute; reflexivity. Qed.

Example binary64_scores :
  forallb
    (λ m, forallb
            (λ d,
               let ratio := inject_Z (Z.of_nat d) / inject_Z (Z.of_nat m) in
               let score := binary64 (1 - binary64 ratio) in
               same_number (1 - float_of_nat d / float_of_nat m) score
               && same_number
                    ((1 - float_of_nat d / float_of_nat m) * 0.7)
                    (binary64 (score * binary64 0.7)))
            (seq 0 (m + 1)))
    (seq 1 64)
  = true.
Proof. vm_compute. reflexivity. Qed.

(** Two totals that are equal as rationals and differ as floats: the
    query "abcde" is at distance 3 from the name "abxyz" (1 - 3/5) and
    from the description "abcdxyz" ((1 - 3/7) * 0.7).  The floats are
    0.4 and 0.39999999999999997, and the group matched by its name goes
    first, though it came second. *)
Example rank_rounded_totals :
  let by_description := Group (text "zz") (Some (text "abcdxyz")) in
  let by_name := Group (text "abxyz") None in
  aggregate isspace lower name description (text "abcde") 0.75 by_name
  == aggregate isspace lower name description (text "abcde") 0.75
       by_description
  ∧ aggregate_b64 isspace lower name description (text "abcde") 0.75
      by_description
    < aggregate_b64 isspace lower name description (text "abcde") 0.75
        by_name
  ∧ same_number (1 - 3 / 5)
      (aggregate_b64 isspace lower name description (text "abcde") 0.75
         by_name) = true
  ∧ same_number ((1 - 3 / 7) * 0.7)
      (aggregate_b64 isspace lower name description (text "abcde") 0.75
         by_description) = true
  ∧ rank "abcde" [by_description; by_name] 0.75
    = Some [by_name; by_description].
Proof. repeat split; vm_compute; reflexivity. Qed.

(** C1, as the code has it: [fuzzy_match] on "cat" and "concatenate"
    with the default threshold returns exactly 1.0, from line 45: "cat"
    is a slice of the whole text, and the 0.9 of line 50 is not
    reached. *)
Theorem score_cat_concatenate :
  fuzzy_match_exit isspace lower (text "cat") (text "concatenate") 0.3
  = Some (Line45, 1)
  ∧ score "cat" "concatenate" 0.3 = Some 1.
Proof.
  assert (str_in (lower (text "cat")) (lower (text "concatenate")) = true)
    as Hin by (vm_compute; reflexivity).
  unfold score, fuzzy_match, fuzzy_match_exit. by rewrite Hin.
Qed.

(** C1 as stated fails: the score of "cat" in "concatenate" is not 0.9. *)
Lemma score_cat_concatenate_not_0_9 :
  ¬ ∃ v, score "cat" "concatenate" 0.3 = Some v ∧ v == 0.9.
Proof.
  intros (v & Hv & Heq). vm_compute in Hv. injection Hv as <-.
  vm_compute in Heq. discriminate.
Qed.

(** In "concatenate" the premise of the token shortcut holds, and line
    45 returns. *)
Lemma fuzzy_match_line50_unreachable_witness :
  (∃ word, word ∈ split isspace (lower (text "concatenate"))
           ∧ slice (lower (text "cat")) word)
  ∧ fuzzy_match_exit isspace lower (text "cat") (text "concatenate") 0.3
    = Some (Line45, 1).
Proof.
  assert (∃ word, word ∈ split isspace (lower (text "concatenate"))
                  ∧ slice (lower (text "cat")) word) as Hword.
  { exists (text "concatenate"). split.
    - vm_compute. left.
    - exists (text "con"), (text "enate"). reflexivity. }
  split; [exact Hword|].
  exact (proj1 (proj2 (fuzzy_match_line50_unreachable isspace lower
                         (text "cat") (text "concatenate") 0.3)) Hword).
Defined.


(** "cat" is a slice of "a cat store"; the empty query on the empty
    text. *)
Lemma fuzzy_match_whole_text_witness :
  score "cat" "a cat store" 0.3 = Some 1 ∧ score "" "" 0.3 = Some 1.
Proof.
  split.
  - apply (proj1 (fuzzy_match_whole_text isspace lower
                    (text "cat") (text "a cat store") 0.3)).
    exists (text "a "), (text " store"). reflexivity.
  - apply (proj2 (fuzzy_match_whole_text isspace lower
                    (text "") (text "") 0.3)).
    reflexivity.
Defined.

(** The word "world" against the query "wrold". *)
Lemma fuzzy_match_unit_interval_witness :
  ∃ distance ratio,
    levenshtein_distance (lower (text "wrold")) (text "world")
    = Some distance
    ∧ (distance ≤ 5)%nat
    ∧ true_div distance 5 = Some ratio
    ∧ 0 <= 1 - ratio ∧ 1 - ratio <= 1.
Proof.
  apply (proj2 (fuzzy_match_unit_interval isspace lower
                  (text "wrold") (text "hello world") 0.3) (text "world")).
  simpl. lia.
Defined.
End Scenarios.

(** * Further properties of the matching functions *)

Section EditDistanceBounds.
Context {char : Type} `{EqDecision char}.
Implicit Types s t : list char.

Lemma edit_zero s t n : edit s t n → n = 0 → s = t.
Proof.
  induction 1 as [|a s t n _ IH|b s t n _ IH|a b s t n _ IH]; intros Hn.
  - done.
  - done.
  - done.
  - unfold int_of_bool in Hn. case_bool_decide as Hab; [lia|].
    subst. f_equal. apply IH. lia.
Qed.

Lemma edit_length s t n :
  edit s t n → length s ≤ length t + n ∧ length t ≤ length s + n.
Proof.
  induction 1 as [|a s t n _ IH|b s t n _ IH|a b s t n _ IH]; simpl; lia.
Qed.

Lemma lev_zero s t : lev s t = 0 → s = t.
Proof. intros Hz. by apply (edit_zero s t (lev s t)); [apply edit_lev|]. Qed.

Lemma levenshtein_distance_zero s t :
  levenshtein_distance s t = Some 0 → s = t.
Proof.
  rewrite levenshtein_distance_lev. intros [= Hz%lev_zero].
  by apply (inj reverse).
Qed.
End EditDistanceBounds.

Section BestWord.
Context {char : Type} `{EqDecision char}.
Variables (isspace : char → bool) (lower : list char → list char).
Implicit Types query text word : list char.
Local Open Scope Q_scope.

Lemma word_ratio_unit d len :
  (0 < len)%nat → (d ≤ len)%nat → unit_interval (word_ratio d len).
Proof.
  intros Hlen Hd. destruct (true_div_unit d len Hlen Hd) as (r & Hr & Hunit).
  unfold true_div in Hr. rewrite bool_decide_eq_false_2 in Hr by lia.
  injection Hr as <-. by apply unit_interval_complement.
Qed.

Lemma word_ratio_lt_1 d len :
  (0 < d)%nat → (0 < len)%nat → word_ratio d len < 1.
Proof.
  intros Hd Hlen. unfold word_ratio.
  assert (0 < inject_Z (Z.of_nat d) / inject_Z (Z.of_nat len)); [|lra].
  apply Qlt_shift_div_l; rewrite ?Qmult_0_l, <- (Zlt_Qlt 0); lia.
Qed.

(** Lines 54-59 on a word at least as long as the query: [max_len] is
    the length of the word. *)
Lemma word_step_long query max_score word :
  (length query ≤ length word)%nat → (0 < length word)%nat →
  word_step query max_score word
  = Some (let score := word_ratio (lev (reverse query) (reverse word))
                         (length word) in
          if Qlt_bool max_score score then score else max_score).
Proof.
  intros Hlong Hword. unfold word_step.
  rewrite bool_decide_eq_true_2, levenshtein_distance_lev by done.
  cbn [mbind option_bind]. rewrite Nat.max_r by done. unfold true_div.
  by rewrite bool_decide_eq_false_2 by lia.
Qed.

(** Line 54: a word shorter than the query is skipped. *)
Lemma word_step_short query max_score word :
  (length word < length query)%nat →
  word_step query max_score word = Some max_score.
Proof. intros Hshort. unfold word_step. by rewrite bool_decide_eq_false_2 by lia. Qed.

(** Lines 52-59: the loop leaves in [max_score] the greatest score of
    the words that are long enough, or its initial value if none is
    greater. *)
Lemma words_loop_best query words : ∀ max_score,
  (∀ word, word ∈ words → (0 < length word)%nat) →
  ∃ best,
    for_each (word_step query) words max_score = Some best
    ∧ max_score <= best
    ∧ (∀ word, word ∈ words → (length query ≤ length word)%nat →
         word_ratio (lev (reverse query) (reverse word)) (length word)
         <= best)
    ∧ (best = max_score
       ∨ ∃ word, word ∈ words ∧ (length query ≤ length word)%nat
           ∧ best = word_ratio (lev (reverse query) (reverse word))
                      (length word)).
Proof.
  induction words as [|w words IH]; intros m0 Hwords.
  { exists m0. split; [done|]. split; [apply Qle_refl|].
    split; [by intros ? ?%elem_of_nil|by left]. }
  cbn [for_each].
  assert (∀ word, word ∈ words → (0 < length word)%nat) as Hrest.
  { intros word Hin. apply Hwords. by right. }
  destruct (decide (length query ≤ length w)%nat) as [Hlong|Hshort].
  - rewrite word_step_long by (done || apply Hwords; left).
    cbn [mbind option_bind].
    set (score := word_ratio (lev (reverse query) (reverse w)) (length w)).
    cbv zeta. destruct (Qlt_bool m0 score) eqn:Hlt.
    + apply Qlt_bool_iff in Hlt.
      destruct (IH score Hrest) as (best & -> & Hle & Hmax & Hbest).
      exists best. split; [done|]. split; [lra|]. split.
      * intros word [->|Hin]%elem_of_cons Hlen; [done|by apply Hmax].
      * right. destruct Hbest as [->|(word & Hin & Hlen & ->)].
        -- exists w. split; [left|done].
        -- exists word. split; [by right|done].
    + apply not_true_iff_false in Hlt. rewrite Qlt_bool_iff in Hlt.
      apply Qnot_lt_le in Hlt.
      destruct (IH m0 Hrest) as (best & -> & Hle & Hmax & Hbest).
      exists best. split; [done|]. split; [done|]. split.
      * intros word [->|Hin]%elem_of_cons Hlen; [|by apply Hmax].
        fold score. lra.
      * destruct Hbest as [->|(word & Hin & Hlen & ->)]; [by left|].
        right. exists word. split; [by right|done].
  - rewrite word_step_short by lia. cbn [mbind option_bind].
    destruct (IH m0 Hrest) as (best & -> & Hle & Hmax & Hbest).
    exists best. split; [done|]. split; [done|]. split.
    + intros word [->|Hin]%elem_of_cons Hlen; [lia|by apply Hmax].
    + destruct Hbest as [->|(word & Hin & Hlen & ->)]; [by left|].
      right. exists word. split; [by right|done].
Qed.

(** [fuzzy_match] when the query is not in the text: the best score of
    a word, if it reaches the bound, and 0.0 otherwise. *)
Lemma fuzzy_match_fallback query text :
  ¬ slice (lower query) (lower text) →
  ∃ best,
    (∀ threshold,
       fuzzy_match isspace lower query text threshold
       = Some (if Qge_bool best (1 - threshold) then best else 0))
    ∧ 0 <= best ∧ best < 1
    ∧ (∀ word, word ∈ split isspace (lower text) →
         (length (lower query) ≤ length word)%nat →
         word_ratio (lev (reverse (lower query)) (reverse word))
           (length word) <= best)
    ∧ (best = 0
       ∨ ∃ word, word ∈ split isspace (lower text)
           ∧ (length (lower query) ≤ length word)%nat
           ∧ best = word_ratio (lev (reverse (lower query)) (reverse word))
                      (length word)).
Proof.
  intros Hnot.
  destruct (words_loop_best (lower query) (split isspace (lower text)) 0)
    as (best & Hloop & H0 & Hmax & Hbest).
  { intros word. apply split_nonempty. }
  exists best. split; [|split; [done|split; [|done]]].
  - intros threshold. unfold fuzzy_match, fuzzy_match_exit.
    destruct (str_in (lower query) (lower text)) eqn:Hin.
    { by apply str_in_slice in Hin. }
    destruct (existsb _ _) eqn:Hword.
    { apply str_in_split in Hword. congruence. }
    rewrite Hloop. cbn [mbind option_bind].
    by destruct (Qge_bool best (1 - threshold)).
  - destruct Hbest as [->|(word & Hin & Hlen & ->)]; [done|].
    apply word_ratio_lt_1; [|by apply (split_nonempty isspace (lower text))].
    destruct (lev (reverse (lower query)) (reverse word)) eqn:Hlev; [|lia].
    apply lev_zero, (inj reverse) in Hlev. destruct Hnot. rewrite Hlev.
    by apply (split_slice isspace).
Qed.

Lemma fuzzy_match_slice query text threshold :
  slice (lower query) (lower text) →
  fuzzy_match isspace lower query text threshold = Some 1.
Proof.
  intros Hin%str_in_slice. unfold fuzzy_match, fuzzy_match_exit.
  by rewrite Hin.
Qed.

Lemma slice_dec query text : Decision (slice query text).
Proof.
  destruct (str_in query text) eqn:Hin; [left|right].
  - by apply str_in_slice.
  - rewrite <- str_in_slice. congruence.
Qed.

(** The score grows with the threshold. *)
Lemma fuzzy_match_mono query text threshold1 threshold2 :
  threshold1 <= threshold2 →
  ∃ v1 v2,
    fuzzy_match isspace lower query text threshold1 = Some v1
    ∧ fuzzy_match isspace lower query text threshold2 = Some v2
    ∧ 0 <= v1 ∧ v1 <= v2.
Proof.
  intros Hle.
  destruct (slice_dec (lower query) (lower text)) as [Hin|Hnot].
  - exists 1, 1. rewrite !fuzzy_match_slice by done. by repeat split.
  - destruct (fuzzy_match_fallback query text Hnot)
      as (best & Hfm & H0 & _ & _ & _).
    do 2 eexists. split; [apply Hfm|]. split; [apply Hfm|].
    destruct (Qge_bool best (1 - threshold1)) eqn:H1;
      destruct (Qge_bool best (1 - threshold2)) eqn:H2; try lra.
    apply Qge_bool_iff in H1. apply not_true_iff_false in H2.
    rewrite Qge_bool_iff in H2. lra.
Qed.
End BestWord.

Section BestWordBinary64.
Context {char : Type} `{EqDecision char}.
Variables (isspace : char → bool) (lower : list char → list char).
Implicit Types query text word : list char.
Local Open Scope Q_scope.

Lemma slice_length query text :
  slice query text → (length query ≤ length text)%nat.
Proof. intros (l & r & ->). rewrite !length_app. lia. Qed.

(** A ratio [d / m] with [0 < d] and [m < 2^53] is at least [2^-53]. *)
Lemma true_div_far_from_0 (d m : nat) :
  (0 < d ≤ m)%nat → (Z.of_nat m < 2 ^ 53)%Z →
  ∃ r, true_div d m = Some r ∧ pow2 (-53) <= r ∧ r <= 1.
Proof.
  intros [Hd Hdm] Hm.
  destruct (true_div_unit d m) as (r & Hr & [_ Hr1]); [lia|done|].
  exists r. repeat split; [done| |done].
  unfold true_div in Hr. rewrite bool_decide_eq_false_2 in Hr by lia.
  injection Hr as <-.
  assert (0 < inject_Z (Z.of_nat m)) as Hpos.
  { rewrite <- (Zlt_Qlt 0). lia. }
  apply Qle_shift_div_l; [done|].
  apply Qle_trans with (pow2 (-53) * inject_Z (2 ^ 53)).
  - apply Qmult_le_l; [apply pow2_pos|]. rewrite <- Zle_Qle. lia.
  - apply Qle_trans with 1; [vm_compute; discriminate|].
    rewrite <- (Zle_Qle 1). lia.
Qed.

(** Lines 54-59 in binary64, on a word shorter than [2^53] characters
    that does not contain the query: the score stays below 1.0 by a
    half unit in the last place. *)
Lemma word_step_b64_below_1 query max_score word :
  (0 < length word)%nat → (Z.of_nat (length word) < 2 ^ 53)%Z →
  ¬ slice query word →
  0 <= max_score ∧ max_score <= 1 - pow2 (-53) →
  ∃ max_score', word_step_b64 query max_score word = Some max_score'
                ∧ 0 <= max_score' ∧ max_score' <= 1 - pow2 (-53).
Proof.
  intros Hword Hshort Hnot Hmax. unfold word_step_b64.
  case_bool_decide as Hlen; [|eauto].
  destruct (levenshtein_distance_le_max query word) as (d & Hd & Hle).
  rewrite Hd. cbn [mbind option_bind].
  assert (d ≠ 0)%nat as Hd0.
  { intros ->. apply levenshtein_distance_zero in Hd as ->.
    apply Hnot, slice_refl. }
  destruct (true_div_far_from_0 d (length query `max` length word))
    as (r & -> & Hr0 & Hr1); [lia|lia|].
  cbn [mbind option_bind]. eexists. split; [done|].
  destruct (Qlt_bool max_score _); [|done].
  pose proof (pow2_pos (-53)) as Hulp.
  assert (pow2 (-53) <= binary64 r) as Hlow.
  { rewrite <- binary64_half_ulp. by apply binary64_mono. }
  assert (binary64 r <= 1) as Hhigh.
  { rewrite <- binary64_1. by apply binary64_mono. }
  split.
  - apply binary64_nonneg. lra.
  - eapply Qle_trans; [|apply Qle_lteq; right; apply binary64_pred_1].
    apply binary64_mono. lra.
Qed.

(** [fuzzy_match] in binary64 on a text shorter than [2^53] characters
    that does not contain the query returns less than 1.0. *)
Lemma fuzzy_match_b64_below_1 query text threshold :
  ¬ slice (lower query) (lower text) →
  (Z.of_nat (length (lower text)) < 2 ^ 53)%Z →
  ∃ v, fuzzy_match_b64 isspace lower query text threshold = Some v
       ∧ 0 <= v ∧ v < 1.
Proof.
  intros Hnot Hshort. unfold fuzzy_match_b64.
  destruct (str_in (lower query) (lower text)) eqn:Hin.
  { by apply str_in_slice in Hin. }
  destruct (existsb _ _) eqn:Hword.
  { apply str_in_split in Hword. congruence. }
  pose proof (pow2_pos (-53)) as Hulp.
  destruct (for_each_invariant
              (λ m, 0 <= m ∧ m <= 1 - pow2 (-53))
              (word_step_b64 (lower query))
              (split isspace (lower text)) 0)
    as (max_score & -> & Hmax0 & Hmax1).
  { split; [done|]. vm_compute. discriminate. }
  { intros max_score word Hw Hmax.
    pose proof (split_slice _ _ _ Hw) as Hslice.
    apply word_step_b64_below_1; [|..|done].
    - by eapply split_nonempty.
    - apply slice_length in Hslice. lia.
    - intros Hq. apply Hnot. by eapply slice_trans. }
  cbn [mbind option_bind].
  destruct (Qge_bool _ _); eexists; (split; [done|]); lra.
Qed.

(** A greater threshold lowers the bound of line 61, in binary64 too:
    the score can only go from 0.0 to the best score. *)
Lemma fuzzy_match_b64_mono query text threshold1 threshold2 :
  threshold1 <= threshold2 →
  ∃ v1 v2,
    fuzzy_match_b64 isspace lower query text threshold1 = Some v1
    ∧ fuzzy_match_b64 isspace lower query text threshold2 = Some v2
    ∧ v1 <= v2.
Proof.
  intros Hle. unfold fuzzy_match_b64.
  destruct (str_in (lower query) (lower text)).
  { exists 1, 1. by repeat split. }
  destruct (existsb _ _).
  { do 2 eexists. repeat split. apply Qle_refl. }
  destruct (words_loop_b64_unit isspace (lower query) (lower text))
    as (max_score & -> & Hmax0 & _).
  cbn [mbind option_bind].
  assert (binary64 (1 - binary64 threshold2)
          <= binary64 (1 - binary64 threshold1)) as Hbound.
  { apply binary64_mono. pose proof (binary64_mono _ _ Hle). lra. }
  destruct (Qge_bool max_score (binary64 (1 - binary64 threshold1))) eqn:H1.
  - apply Qge_bool_iff in H1.
    assert (Qge_bool max_score (binary64 (1 - binary64 threshold2)) = true)
      as -> by (apply Qge_bool_iff; lra).
    do 2 eexists. repeat split. apply Qle_refl.
  - destruct (Qge_bool max_score (binary64 (1 - binary64 threshold2)));
      do 2 eexists; (split; [done|]); (split; [done|]); lra.
Qed.
End BestWordBinary64.

(** ** The exact scores and the binary64 scores *)

Section ExactAndBinary64.
Context {char : Type} `{EqDecision char}.
Variables (isspace : char → bool) (lower : list char → list char).
Implicit Types query text word : list char.
Local Open Scope Q_scope.

Lemma binary64_Qeq x y : x == y → binary64 x == binary64 y.
Proof. intros Heq. apply Qle_antisym; apply binary64_mono; lra. Qed.

Lemma rounded_score_mono a b : a <= b → rounded_score a <= rounded_score b.
Proof.
  intros Hab. unfold rounded_score. apply binary64_mono.
  assert (binary64 (1 - b) <= binary64 (1 - a))
    by (apply binary64_mono; lra).
  lra.
Qed.

Lemma rounded_score_0 : rounded_score 0 == 0.
Proof. vm_compute. reflexivity. Qed.

Lemma rounded_score_half_ulp : rounded_score (pow2 (-53)) == pow2 (-53).
Proof. vm_compute. reflexivity. Qed.

(** A positive score of a word shorter than [2^53] characters is at
    least [2^-53]. *)
Lemma word_ratio_far_from_0 (d len : nat) :
  (0 < len)%nat → (Z.of_nat len < 2 ^ 53)%Z →
  0 < word_ratio d len → pow2 (-53) <= word_ratio d len.
Proof.
  intros Hlen Hshort Hpos. unfold word_ratio in *.
  rewrite Zlt_Qlt in Hshort.
  change (inject_Z (2 ^ 53)) with (9007199254740992 # 1) in Hshort.
  assert (pow2 (-53) == 1 # 9007199254740992) as -> by reflexivity.
  set (D := inject_Z (Z.of_nat d)) in *.
  set (L := inject_Z (Z.of_nat len)) in *.
  assert (0 < L) as HL by (unfold L; rewrite <- (Zlt_Qlt 0); lia).
  assert (D + 1 <= L) as Hgap.
  { assert (D / L * L == D) as HD by (field; lra).
    assert (D / L * L < 1 * L) as Hm by (apply Qmult_lt_r; lra).
    assert (D < L) as Hlt by lra. unfold D, L in *.
    rewrite <- Zlt_Qlt in Hlt.
    change 1 with (inject_Z 1). rewrite <- inject_Z_plus, <- Zle_Qle. lia. }
  assert (D / L <= 1 - (1 # 9007199254740992)); [|lra].
  apply Qle_shift_div_r; [done|]. lra.
Qed.

(** A score below 0.7 of a word shorter than [2^49] characters is below
    it by [1 / (10 * 2^49)] at least. *)
Lemma word_ratio_far_from_0_7 (d len : nat) :
  (0 < len)%nat → (Z.of_nat len < 2 ^ 49)%Z →
  word_ratio d len < 0.7 →
  word_ratio d len <= 0.7 - (1 # 5629499534213120).
Proof.
  intros Hlen Hshort Hlt. unfold word_ratio in *.
  rewrite Zlt_Qlt in Hshort.
  change (inject_Z (2 ^ 49)) with (562949953421312 # 1) in Hshort.
  set (D := inject_Z (Z.of_nat d)) in *.
  set (L := inject_Z (Z.of_nat len)) in *.
  assert (0 < L) as HL by (unfold L; rewrite <- (Zlt_Qlt 0); lia).
  assert (3 * L + 1 <= 10 * D) as Hgap.
  { assert (D / L * L == D) as HD by (field; lra).
    assert (0.3 * L < D / L * L) as Hm by (apply Qmult_lt_r; lra).
    assert (3 * L < 10 * D) as Hq by lra. unfold D, L in *.
    change 3 with (inject_Z 3) in *. change 10 with (inject_Z 10) in *.
    change 1 with (inject_Z 1).
    rewrite <- !inject_Z_mult in Hq. rewrite <- Zlt_Qlt in Hq.
    rewrite <- !inject_Z_mult, <- inject_Z_plus, <- Zle_Qle. lia. }
  assert (0.3 + (1 # 5629499534213120) <= D / L); [|lra].
  apply Qle_shift_div_l; [done|]. lra.
Qed.

Lemma word_step_b64_long query max_score word :
  (length query ≤ length word)%nat → (0 < length word)%nat →
  ∃ score,
    word_step_b64 query max_score word
    = Some (if Qlt_bool max_score score then score else max_score)
    ∧ score == rounded_score
                 (word_ratio (lev (reverse query) (reverse word))
                    (length word)).
Proof.
  intros Hlong Hword. unfold word_step_b64.
  rewrite bool_decide_eq_true_2, levenshtein_distance_lev by done.
  cbn [mbind option_bind]. rewrite Nat.max_r by done. unfold true_div.
  rewrite bool_decide_eq_false_2 by lia. cbn [mbind option_bind].
  eexists. split; [done|]. unfold rounded_score, word_ratio.
  set (r := _ / _). apply binary64_Qeq.
  assert (binary64 r == binary64 (1 - (1 - r)))
    by (apply binary64_Qeq; ring).
  lra.
Qed.

Lemma word_step_b64_short query max_score word :
  (length word < length query)%nat →
  word_step_b64 query max_score word = Some max_score.
Proof.
  intros Hshort. unfold word_step_b64.
  by rewrite bool_decide_eq_false_2 by lia.
Qed.

(** Lines 52-59: the binary64 loop leaves in [max_score] the rounding of
    what the exact loop leaves. *)
Lemma words_loop_rounded query words : ∀ max_score max_score64,
  (∀ word, word ∈ words → (0 < length word)%nat) →
  max_score64 == rounded_score max_score →
  ∃ best best64,
    for_each (word_step query) words max_score = Some best
    ∧ for_each (word_step_b64 query) words max_score64 = Some best64
    ∧ best64 == rounded_score best.
Proof.
  induction words as [|w words IH]; intros m m64 Hwords Hm.
  { by exists m, m64. }
  cbn [for_each].
  assert (∀ word, word ∈ words → (0 < length word)%nat) as Hrest.
  { intros word Hin. apply Hwords. by right. }
  destruct (decide (length query ≤ length w)%nat) as [Hlong|Hshort].
  - rewrite word_step_long by (done || apply Hwords; left).
    destruct (word_step_b64_long query m64 w) as (score64 & -> & Hscore);
      [done|apply Hwords; left|].
    cbn [mbind option_bind]. cbv zeta.
    set (score := word_ratio (lev (reverse query) (reverse w)) (length w))
      in *.
    apply IH; [done|].
    destruct (Qlt_bool m score) eqn:Hlt;
      destruct (Qlt_bool m64 score64) eqn:Hlt64;
      rewrite ?Qlt_bool_iff in *;
      try (apply not_true_iff_false in Hlt; rewrite Qlt_bool_iff in Hlt);
      try (apply not_true_iff_false in Hlt64;
           rewrite Qlt_bool_iff in Hlt64);
      try done.
    + pose proof (rounded_score_mono m score). lra.
    + pose proof (rounded_score_mono score m). lra.
  - rewrite word_step_short, word_step_b64_short by lia.
    cbn [mbind option_bind]. by apply IH.
Qed.

(** [fuzzy_match] and its binary64 evaluation when the query is not in
    the text: the best score of a word and its rounding, each against
    its bound. *)
Lemma fuzzy_match_both query text :
  ¬ slice (lower query) (lower text) →
  ∃ best best64,
    (∀ threshold,
       fuzzy_match isspace lower query text threshold
       = Some (if Qge_bool best (1 - threshold) then best else 0))
    ∧ (∀ threshold,
         fuzzy_match_b64 isspace lower query text threshold
         = Some (if Qge_bool best64 (binary64 (1 - binary64 threshold))
                 then best64 else 0))
    ∧ best64 == rounded_score best
    ∧ 0 <= best
    ∧ (best = 0
       ∨ ∃ word, word ∈ split isspace (lower text)
           ∧ best = word_ratio (lev (reverse (lower query)) (reverse word))
                      (length word)).
Proof.
  intros Hnot.
  destruct (words_loop_best (lower query) (split isspace (lower text)) 0)
    as (best & Hloop & H0 & _ & Hbest).
  { intros word. apply split_nonempty. }
  destruct (words_loop_rounded (lower query) (split isspace (lower text))
              0 0) as (best' & best64 & Hloop' & Hloop64 & Hround).
  { intros word. apply split_nonempty. }
  { by rewrite rounded_score_0. }
  rewrite Hloop in Hloop'. injection Hloop' as <-.
  assert (str_in (lower query) (lower text) = false) as Hin.
  { apply not_true_iff_false. by rewrite str_in_slice. }
  assert (existsb (str_in (lower query)) (split isspace (lower text))
          = false) as Hword.
  { apply not_true_iff_false. intros Hw%str_in_split. congruence. }
  exists best, best64. repeat split; [| |done|done|].
  - intros threshold. unfold fuzzy_match, fuzzy_match_exit.
    rewrite Hin, Hword, Hloop. cbn [mbind option_bind].
    by destruct (Qge_bool best (1 - threshold)).
  - intros threshold. unfold fuzzy_match_b64.
    rewrite Hin, Hword, Hloop64. cbn [mbind option_bind].
    by destruct (Qge_bool best64 _).
  - destruct Hbest as [->|(word & Hw & _ & ->)]; [by left|].
    right. by exists word.
Qed.

(** Where the exact score is positive, so is the binary64 score, for a
    text shorter than [2^53] characters. *)
Lemma fuzzy_match_b64_exact_pos query text threshold v :
  (Z.of_nat (length (lower text)) < 2 ^ 53)%Z →
  fuzzy_match isspace lower query text threshold = Some v → 0 < v →
  ∃ v64, fuzzy_match_b64 isspace lower query text threshold = Some v64
         ∧ pow2 (-53) <= v64.
Proof.
  intros Hshort Hv Hpos.
  destruct (slice_dec (lower query) (lower text)) as [Hin|Hnot].
  { rewrite fuzzy_match_b64_slice by done. eexists. split; [done|].
    vm_compute. discriminate. }
  destruct (fuzzy_match_both query text Hnot)
    as (best & best64 & Hfm & Hfm64 & Hround & H0 & Hbest).
  rewrite Hfm in Hv. rewrite Hfm64. injection Hv as <-.
  destruct (Qge_bool best (1 - threshold)) eqn:Hge;
    [|by apply Qlt_irrefl in Hpos].
  apply Qge_bool_iff in Hge.
  assert (Qge_bool best64 (binary64 (1 - binary64 threshold)) = true)
    as ->.
  { apply Qge_bool_iff. rewrite Hround. unfold rounded_score.
    apply binary64_mono.
    assert (binary64 (1 - best) <= binary64 threshold)
      by (apply binary64_mono; lra).
    lra. }
  eexists. split; [done|]. rewrite Hround, <- rounded_score_half_ulp.
  apply rounded_score_mono.
  destruct Hbest as [->|(word & Hw & ->)]; [by apply Qlt_irrefl in Hpos|].
  apply word_ratio_far_from_0; [by eapply split_nonempty| |done].
  apply split_slice, slice_length in Hw. lia.
Qed.

(** With the default threshold, where the exact score is 0.0, so is the
    binary64 score, for a text shorter than [2^49] characters. *)
Lemma fuzzy_match_b64_exact_zero query text v :
  (Z.of_nat (length (lower text)) < 2 ^ 49)%Z →
  fuzzy_match isspace lower query text 0.3 = Some v → v == 0 →
  fuzzy_match_b64 isspace lower query text 0.3 = Some 0.
Proof.
  intros Hshort Hv Hzero.
  destruct (slice_dec (lower query) (lower text)) as [Hin|Hnot].
  { rewrite fuzzy_match_slice in Hv by done. injection Hv as <-.
    by vm_compute in Hzero. }
  destruct (fuzzy_match_both query text Hnot)
    as (best & best64 & Hfm & Hfm64 & Hround & H0 & Hbest).
  rewrite Hfm in Hv. rewrite Hfm64. injection Hv as <-.
  assert (best < 0.7) as Hlow.
  { destruct (Qge_bool best (1 - 0.3)) eqn:Hge.
    - apply Qge_bool_iff in Hge. lra.
    - apply not_true_iff_false in Hge. rewrite Qge_bool_iff in Hge. lra. }
  assert (Qge_bool best64 (binary64 (1 - binary64 0.3)) = false) as ->;
    [|done].
  apply not_true_iff_false. rewrite Qge_bool_iff. apply Qlt_not_le.
  rewrite Hround.
  destruct Hbest as [->|(word & Hw & ->)]; [by vm_compute|].
  apply Qle_lt_trans
    with (rounded_score (0.7 - (1 # 5629499534213120))); [|by vm_compute].
  apply rounded_score_mono, word_ratio_far_from_0_7;
    [by eapply split_nonempty| |done].
  apply split_slice, slice_length in Hw. lia.
Qed.
End ExactAndBinary64.

Section FilterFacts.
Context {A : Type} (P : A → Prop) `{∀ x, Decision (P x)}.

Lemma filter_all l : Forall P l → filter P l = l.
Proof.
  induction 1 as [|x l Hx _ IH]; [done|].
  by rewrite filter_cons_True, IH.
Qed.

Lemma filter_iff_on (P' : A → Prop) `{∀ x, Decision (P' x)} (l : list A) :
  (∀ x, x ∈ l → P x ↔ P' x) → filter P l = filter P' l.
Proof.
  induction l as [|x l IH]; intros Hl; [done|].
  rewrite !filter_cons, IH by (intros y Hy; apply Hl; by right).
  destruct (decide (P x)) as [Hx|Hx], (decide (P' x)) as [Hx'|Hx'];
    try done; exfalso; apply (Hl x) in Hx || apply (Hl x) in Hx';
    done || left.
Qed.

Lemma filter_none l : Forall (λ x, ¬ P x) l → filter P l = [].
Proof.
  induction 1 as [|x l Hx _ IH]; [done|].
  by rewrite filter_cons_False.
Qed.
End FilterFacts.

Section TopFirst.
Context {A : Type} (key : A → Q).
Local Open Scope Q_scope.

(** In a descending list the elements of the greatest possible key come
    first. *)
Lemma descending_top_first (top : Q) l :
  StronglySorted (descending key) l →
  Forall (λ x, key x <= top) l →
  l = filter (λ x, key x == top) l ++ filter (λ x, ¬ key x == top) l.
Proof.
  induction 1 as [|x l Hl IH Hx]; intros Htop; [done|].
  apply Forall_cons in Htop as [Hxtop Htop].
  destruct (decide (key x == top)) as [Heq|Hne].
  - rewrite filter_cons_True, filter_cons_False by tauto.
    simpl. f_equal. by apply IH.
  - rewrite filter_cons_False, filter_cons_True by done.
    rewrite filter_none, filter_all; [done| |].
    + eapply Forall_impl; [exact Hx|]. intros y Hy Heq. unfold descending in Hy.
      apply Hne. apply Qle_antisym; [done|]. by rewrite <- Heq.
    + eapply Forall_impl; [exact Hx|]. intros y Hy Heq. unfold descending in Hy.
      apply Hne. apply Qle_antisym; [done|]. by rewrite <- Heq.
Qed.
End TopFirst.

Section SearchOrder.
Context {char : Type} `{EqDecision char}.
Variables (isspace : char → bool) (lower : list char → list char).
Context {group : Type}.
Variables (name : group → list char) (description : group → option (list char)).
Implicit Types (query : list char) (threshold : Q) (g : group).
Local Open Scope Q_scope.

Local Abbreviation agg := (aggregate isspace lower name description).
Local Abbreviation agg64 := (aggregate_b64 isspace lower name description).

Lemma aggregate_unfold query threshold g :
  ∃ n d,
    fuzzy_match isspace lower query (name g) threshold = Some n
    ∧ fuzzy_match isspace lower query (default [] (description g)) threshold
      = Some d
    ∧ agg query threshold g = py_max n (d * 0.7)
    ∧ unit_interval n ∧ unit_interval d.
Proof.
  destruct (fuzzy_match_post isspace lower query (name g) threshold)
    as (e1 & n & Hn & Hnu & _).
  destruct (fuzzy_match_post isspace lower query
              (default [] (description g)) threshold)
    as (e2 & d & Hd & Hdu & _).
  exists n, d. repeat (split; [done|]). split; [|done].
  unfold aggregate, total_score. by rewrite Hn, Hd.
Qed.

Lemma aggregate_b64_unfold query threshold g :
  ∃ n d,
    fuzzy_match_b64 isspace lower query (name g) threshold = Some n
    ∧ fuzzy_match_b64 isspace lower query (default [] (description g))
        threshold = Some d
    ∧ agg64 query threshold g = py_max n (binary64 (d * binary64 0.7))
    ∧ unit_interval n ∧ unit_interval d.
Proof.
  destruct (fuzzy_match_b64_post isspace lower query (name g) threshold)
    as (n & Hn & Hnu).
  destruct (fuzzy_match_b64_post isspace lower query
              (default [] (description g)) threshold)
    as (d & Hd & Hdu).
  exists n, d. repeat (split; [done|]). split; [|done].
  unfold aggregate_b64, total_score_b64. by rewrite Hn, Hd.
Qed.

(** The binary64 total of a group whose name contains the query is
    1.0, ... *)
Lemma aggregate_b64_slice query threshold g :
  slice (lower query) (lower (name g)) → agg64 query threshold g == 1.
Proof.
  intros Hin.
  destruct (aggregate_b64_unfold query threshold g)
    as (n & d & Hn & _ & -> & _ & Hd).
  rewrite (fuzzy_match_b64_slice isspace lower _ _ threshold Hin) in Hn.
  injection Hn as <-.
  destruct (description_share d Hd) as [_ H1].
  rewrite py_max_Qmax. apply Q.max_l. lra.
Qed.

(** ... and of no other group whose name is shorter than [2^53]
    characters. *)
Lemma aggregate_b64_top query threshold g :
  (Z.of_nat (length (lower (name g))) < 2 ^ 53)%Z →
  agg64 query threshold g == 1 ↔ slice (lower query) (lower (name g)).
Proof.
  intros Hshort. split; [|apply aggregate_b64_slice].
  intros Hone.
  destruct (slice_dec (lower query) (lower (name g))) as [|Hnot]; [done|].
  exfalso.
  destruct (aggregate_b64_unfold query threshold g)
    as (n & d & Hn & _ & Hagg & _ & Hd).
  rewrite Hagg, py_max_Qmax in Hone.
  destruct (fuzzy_match_b64_below_1 isspace lower query (name g) threshold
              Hnot Hshort) as (n' & Hn' & _ & Hlt).
  rewrite Hn in Hn'. injection Hn' as <-.
  destruct (description_share d Hd) as [_ H1].
  destruct (Q.max_spec n (binary64 (d * binary64 0.7)))
    as [[_ Heq]|[_ Heq]]; rewrite Heq in Hone; lra.
Qed.

Lemma aggregate_b64_mono query threshold1 threshold2 g :
  threshold1 <= threshold2 →
  agg64 query threshold1 g <= agg64 query threshold2 g.
Proof.
  intros Hle. unfold aggregate_b64, total_score_b64.
  destruct (fuzzy_match_b64_mono isspace lower query (name g) _ _ Hle)
    as (n1 & n2 & -> & -> & Hn).
  destruct (fuzzy_match_b64_mono isspace lower query
              (default [] (description g)) _ _ Hle)
    as (d1 & d2 & -> & -> & Hd).
  cbn [mbind option_bind default from_option id].
  rewrite !py_max_Qmax. apply Q.max_le_compat; [done|].
  apply binary64_mono, Qmult_le_compat_r; [done|apply binary64_0_7].
Qed.

(** A group whose exact total is positive has a positive binary64
    total, when its name and its description are shorter than [2^53]
    characters. *)
Lemma aggregate_b64_exact_pos query threshold g :
  (Z.of_nat (length (lower (name g))) < 2 ^ 53)%Z →
  (Z.of_nat (length (lower (default [] (description g)))) < 2 ^ 53)%Z →
  0 < agg query threshold g → 0 < agg64 query threshold g.
Proof.
  intros Hname Hdesc Hpos.
  destruct (aggregate_unfold query threshold g)
    as (n & d & Hn & Hd & Hagg & [Hn0 _] & [Hd0 _]).
  destruct (aggregate_b64_unfold query threshold g)
    as (n64 & d64 & Hn64 & Hd64 & -> & [Hn64_0 _] & [Hd64_0 _]).
  rewrite Hagg, py_max_Qmax in Hpos. rewrite py_max_Qmax.
  pose proof (pow2_pos (-53)) as Hulp. pose proof (pow2_pos (-54)) as Hulp'.
  destruct (Qlt_le_dec 0 n) as [Hnpos|Hnzero].
  - destruct (fuzzy_match_b64_exact_pos isspace lower _ _ _ _
                Hname Hn Hnpos) as (v & Hv & Hlow).
    rewrite Hn64 in Hv. injection Hv as <-.
    pose proof (Q.le_max_l n64 (binary64 (d64 * binary64 0.7))). lra.
  - assert (0 < d) as Hdpos.
    { destruct (Q.max_spec n (d * 0.7)) as [[_ Heq]|[_ Heq]];
        rewrite Heq in Hpos; lra. }
    destruct (fuzzy_match_b64_exact_pos isspace lower _ _ _ _
                Hdesc Hd Hdpos) as (v & Hv & Hlow).
    rewrite Hd64 in Hv. injection Hv as <-.
    assert (pow2 (-54) <= binary64 (d64 * binary64 0.7)) as Hshare.
    { assert (binary64 (pow2 (-54)) == pow2 (-54)) as <-
        by (vm_compute; reflexivity).
      apply binary64_mono.
      apply Qle_trans with (pow2 (-53) * binary64 0.7);
        [vm_compute; discriminate|].
      apply Qmult_le_compat_r; [done|apply binary64_0_7]. }
    pose proof (Q.le_max_r n64 (binary64 (d64 * binary64 0.7))). lra.
Qed.

(** With the default threshold, a group whose exact total is 0 has the
    binary64 total 0, when its name and its description are shorter
    than [2^49] characters. *)
Lemma aggregate_b64_exact_zero query g :
  (Z.of_nat (length (lower (name g))) < 2 ^ 49)%Z →
  (Z.of_nat (length (lower (default [] (description g)))) < 2 ^ 49)%Z →
  agg query 0.3 g == 0 → agg64 query 0.3 g == 0.
Proof.
  intros Hname Hdesc Hzero.
  destruct (aggregate_unfold query 0.3 g)
    as (n & d & Hn & Hd & Hagg & [Hn0 _] & [Hd0 _]).
  rewrite Hagg, py_max_Qmax in Hzero.
  pose proof (Q.le_max_l n (d * 0.7)). pose proof (Q.le_max_r n (d * 0.7)).
  unfold aggregate_b64, total_score_b64.
  rewrite (fuzzy_match_b64_exact_zero isspace lower _ _ n Hname Hn)
    by lra.
  rewrite (fuzzy_match_b64_exact_zero isspace lower _ _ d Hdesc Hd)
    by lra.
  vm_compute. reflexivity.
Qed.

Lemma aggregate_b64_le_1 query threshold groups :
  Forall (λ g, agg64 query threshold g <= 1) groups.
Proof.
  apply Forall_forall. intros g _.
  by destruct (total_score_b64_aggregate isspace lower name description
                 query threshold g) as [_ [_ ?]].
Qed.
End SearchOrder.

Section StripFacts.
Context {char : Type} `{EqDecision char}.
Variable isspace : char → bool.
Implicit Types s : list char.

Lemma lstrip_nil s :
  lstrip isspace s = [] ↔ Forall (λ c, isspace c = true) s.
Proof.
  induction s as [|c s IH]; simpl; [by split; [constructor|]|].
  destruct (isspace c) eqn:Hc.
  - rewrite IH. split; [by constructor|]. by intros [_ ?]%Forall_cons.
  - split; [done|]. intros [? _]%Forall_cons. congruence.
Qed.

Lemma lstrip_spaces s :
  Forall (λ c, isspace c = true) (lstrip isspace s) →
  Forall (λ c, isspace c = true) s.
Proof.
  induction s as [|c s IH]; simpl; [done|].
  destruct (isspace c) eqn:Hc; [by constructor; auto|done].
Qed.

Lemma strip_nil s : strip isspace s = [] ↔ Forall (λ c, isspace c = true) s.
Proof.
  unfold strip, rstrip. split.
  - intros Hs. apply (f_equal reverse) in Hs.
    rewrite reverse_involutive, reverse_nil in Hs.
    apply lstrip_nil in Hs. rewrite Forall_reverse in Hs.
    by apply lstrip_spaces.
  - intros Hs. apply lstrip_nil in Hs. by rewrite Hs.
Qed.

Lemma split_from_nil s : ∀ word,
  split_from isspace word s = [] ↔ word = [] ∧ Forall (λ c, isspace c = true) s.
Proof.
  induction s as [|c s IH]; intros word; simpl.
  - destruct word; split; try done. by intros [? _].
  - destruct (isspace c) eqn:Hc.
    + destruct word.
      * rewrite IH. split; intros [? ?]; split; try done.
        -- by constructor.
        -- by eapply Forall_cons_1.
      * split; [done|]. by intros [? _].
    + rewrite IH. split.
      * intros [Hw _]. by destruct word.
      * intros [_ [? _]%Forall_cons]. congruence.
Qed.

(** [q.strip()] is empty exactly when [q] has no word. *)
Lemma strip_nil_split s : strip isspace s = [] ↔ split isspace s = [].
Proof.
  rewrite strip_nil. unfold split. rewrite split_from_nil. tauto.
Qed.

(** The test of line 106 on a string. *)
Lemma effective_query s :
  str_truth s && str_truth (strip isspace s)
  = negb (bool_decide (split isspace s = [])).
Proof.
  case_bool_decide as Hs.
  - apply strip_nil_split in Hs. rewrite Hs. simpl. apply andb_false_r.
  - rewrite <- strip_nil_split in Hs.
    destruct s as [|c s]; [done|]. simpl.
    by destruct (strip isspace (c :: s)).
Qed.
End StripFacts.

Section MatchingProperties.
Context {char : Type} `{EqDecision char}.
Variables (isspace : char → bool) (lower : list char → list char).
Context {group : Type}.
Variables (name : group → list char) (description : group → option (list char)).
Local Open Scope Q_scope.

(** distance(a, b) = 0 exactly when a = b. *)
Theorem levenshtein_distance_zero_iff (a b : list char) :
  levenshtein_distance a b = Some 0%nat ↔ a = b.
Proof.
  split; [apply levenshtein_distance_zero|]. intros ->.
  rewrite levenshtein_distance_lev. f_equal.
  apply Nat.le_0_r, lev_le_edit, edit_refl.
Qed.

(** The distance is at least the difference of the lengths, and at
    most the greater length. *)
Theorem levenshtein_distance_length_bounds (a b : list char) :
  ∃ d, levenshtein_distance a b = Some d
       ∧ (length a - length b ≤ d)%nat
       ∧ (length b - length a ≤ d)%nat
       ∧ (d ≤ length a `max` length b)%nat.
Proof.
  destruct (levenshtein_distance_le_max a b) as (d & Hd & Hmax).
  exists d. split; [done|].
  rewrite levenshtein_distance_lev in Hd. injection Hd as <-.
  pose proof (edit_length _ _ _ (edit_lev (reverse a) (reverse b))) as Hlen.
  rewrite !length_reverse in Hlen. lia.
Qed.

(** [fuzzy_match] returns 1.0 for a query that occurs in the text, and
    less than 1.0 for any other: no word that is not the query scores
    1.0. *)
Theorem fuzzy_match_one_iff (query text : list char) (threshold : Q) :
  ∃ v, fuzzy_match isspace lower query text threshold = Some v
       ∧ (v == 1 ↔ slice (lower query) (lower text)).
Proof.
  destruct (slice_dec (lower query) (lower text)) as [Hin|Hnot].
  - exists 1. by rewrite fuzzy_match_slice.
  - destruct (fuzzy_match_fallback isspace lower query text Hnot)
      as (best & Hfm & H0 & H1 & _).
    eexists. split; [apply Hfm|]. split; [|done].
    destruct (Qge_bool best (1 - threshold)); lra.
Qed.

(** A greater threshold never lowers the score. *)
Theorem fuzzy_match_threshold_monotone
    (query text : list char) (threshold1 threshold2 : Q) :
  threshold1 <= threshold2 →
  ∃ v1 v2,
    fuzzy_match isspace lower query text threshold1 = Some v1
    ∧ fuzzy_match isspace lower query text threshold2 = Some v2
    ∧ v1 <= v2.
Proof.
  intros Hle.
  destruct (fuzzy_match_mono isspace lower query text _ _ Hle)
    as (v1 & v2 & H1 & H2 & _ & Hv).
  by exists v1, v2.
Qed.

(** With a threshold of 0 or less the word scores never count:
    [fuzzy_match] is 1.0 if the query occurs in the text and 0.0 if it
    does not. *)
Theorem fuzzy_match_threshold_nonpositive
    (query text : list char) (threshold : Q) :
  threshold <= 0 →
  fuzzy_match isspace lower query text threshold
  = Some (if str_in (lower query) (lower text) then 1 else 0).
Proof.
  intros Hth. destruct (str_in (lower query) (lower text)) eqn:Hin.
  - apply fuzzy_match_slice. by apply str_in_slice.
  - assert (¬ slice (lower query) (lower text)) as Hnot.
    { rewrite <- str_in_slice. congruence. }
    destruct (fuzzy_match_fallback isspace lower query text Hnot)
      as (best & -> & H0 & H1 & _).
    destruct (Qge_bool best (1 - threshold)) eqn:Hge; [|done].
    apply Qge_bool_iff in Hge. lra.
Qed.


(** A query that is not in the text and is longer than every word of
    it scores 0.0, whatever the threshold: so does any query that is not
    empty on a text without words. *)
Theorem fuzzy_match_long_query (query text : list char) (threshold : Q) :
  ¬ slice (lower query) (lower text) →
  (∀ word, word ∈ split isspace (lower text) →
           (length word < length (lower query))%nat) →
  fuzzy_match isspace lower query text threshold = Some 0.
Proof.
  intros Hnot Hshort.
  destruct (fuzzy_match_fallback isspace lower query text Hnot)
    as (best & -> & _ & _ & _ & Hbest).
  destruct Hbest as [->|(word & Hword & Hlen & _)].
  - by destruct (Qge_bool 0 (1 - threshold)).
  - apply Hshort in Hword. lia.
Qed.

(** A greater threshold never loses a result of [fuzzy_search]: the
    groups returned for [threshold1] are among those returned for
    [threshold2], each as often. *)
Theorem fuzzy_search_threshold_monotone
    (query : list char) (groups : list group) (threshold1 threshold2 : Q) :
  threshold1 <= threshold2 →
  ∃ out1 out2,
    fuzzy_search isspace lower name description query groups threshold1
    = Some out1
    ∧ fuzzy_search isspace lower name description query groups threshold2
      = Some out2
    ∧ out1 ⊆+ out2.
Proof.
  intros Hle. do 2 eexists.
  split; [apply fuzzy_search_sort|]. split; [apply fuzzy_search_sort|].
  rewrite !sort_reverse_perm.
  rewrite <- (list_filter_filter_l
                (λ g, 0 < aggregate_b64 isspace lower name description
                            query threshold1 g)
                (λ g, 0 < aggregate_b64 isspace lower name description
                            query threshold2 g)).
  - apply sublist_submseteq, sublist_filter.
  - intros g Hpos.
    pose proof (aggregate_b64_mono isspace lower name description
                  query _ _ g Hle). lra.
Qed.

(** The groups whose name contains the query come first in the result
    of [fuzzy_search], all of them and in their input order; no group
    after them has the query in its name.  The names are shorter than
    [2^53] characters: beyond that, the binary64 score of a name that
    misses the query by one character of a word rounds to 1.0. *)
Theorem fuzzy_search_name_matches_first
    (query : list char) (groups : list group) (threshold : Q) :
  (∀ g, g ∈ groups → (Z.of_nat (length (lower (name g))) < 2 ^ 53)%Z) →
  ∃ rest,
    fuzzy_search isspace lower name description query groups threshold
    = Some (filter (λ g, str_in (lower query) (lower (name g)) = true) groups
            ++ rest)
    ∧ ∀ g, g ∈ rest → str_in (lower query) (lower (name g)) = false.
Proof.
  intros Hshort.
  set (key := aggregate_b64 isspace lower name description query threshold).
  set (kept := filter (λ g, 0 < key g) groups).
  set (out := sort_reverse key kept).
  exists (filter (λ g, ¬ key g == 1) out). split.
  - rewrite fuzzy_search_sort. fold key kept out. f_equal.
    rewrite (descending_top_first key 1 out) at 1.
    + f_equal. unfold out. rewrite sort_reverse_filter.
      * unfold kept. rewrite list_filter_filter.
        apply filter_iff_on. intros g Hg. unfold key.
        rewrite str_in_slice. split.
        -- intros [Hone _]. by apply aggregate_b64_top in Hone; [|apply Hshort].
        -- intros Hin%(aggregate_b64_slice isspace lower name description
                          query threshold).
           split; [done|]. rewrite Hin. lra.
      * intros a b Ha Hb. rewrite Ha, Hb. apply Qlt_irrefl.
    + apply sort_reverse_sorted.
    + apply aggregate_b64_le_1.
  - intros g [Hg _]%list_elem_of_filter. apply not_true_iff_false.
    rewrite str_in_slice. intros Hin. apply Hg.
    by apply aggregate_b64_slice.
Qed.

(** With the default threshold, and names and descriptions shorter than
    [2^49] characters, [fuzzy_search] returns the groups whose exact
    total [max(name_score, desc_score * 0.7)] is not 0: the rounding of
    the floats decides the order, not which groups are returned. *)
Theorem fuzzy_search_default_exact_totals
    (query : list char) (groups : list group) :
  (∀ g, g ∈ groups →
     (Z.of_nat (length (lower (name g))) < 2 ^ 49)%Z
     ∧ (Z.of_nat (length (lower (match description g with
                                 | Some d => d
                                 | None => []
                                 end))) < 2 ^ 49)%Z) →
  ∃ out,
    fuzzy_search isspace lower name description query groups 0.3 = Some out
    ∧ ∀ g, g ∈ out
           ↔ g ∈ groups
             ∧ ¬ aggregate isspace lower name description query 0.3 g == 0.
Proof.
  intros Hshort. eexists. split; [apply fuzzy_search_sort|].
  intros g. rewrite sort_reverse_perm, list_elem_of_filter.
  split.
  - intros [Hpos Hg]. split; [done|]. intros Hzero.
    destruct (Hshort g Hg) as [Hname Hdesc].
    apply (aggregate_b64_exact_zero isspace lower name description)
      in Hzero; [|done|by destruct (description g)].
    rewrite Hzero in Hpos. by apply Qlt_irrefl in Hpos.
  - intros [Hg Hne]. split; [|done].
    destruct (Hshort g Hg) as [Hname Hdesc].
    apply aggregate_pos_iff in Hne.
    apply (aggregate_b64_exact_pos isspace lower name description);
      [lia|destruct (description g); simpl in *; lia|done].
Qed.

(** When every group has the query in its name, [fuzzy_search] returns
    the groups as they came; the empty query is in every name (as
    folding the empty string gives the empty string). *)
Theorem fuzzy_search_all_match
    (query : list char) (groups : list group) (threshold : Q) :
  ((∀ g, g ∈ groups → slice (lower query) (lower (name g))) →
   fuzzy_search isspace lower name description query groups threshold
   = Some groups)
  ∧ (lower [] = [] →
     fuzzy_search isspace lower name description [] groups threshold
     = Some groups).
Proof.
  assert (∀ q, (∀ g, g ∈ groups → slice (lower q) (lower (name g))) →
    fuzzy_search isspace lower name description q groups threshold
    = Some groups) as Hall.
  { intros q Hq. rewrite fuzzy_search_sort. f_equal.
    set (key := aggregate_b64 isspace lower name description q threshold).
    assert (Forall (λ g, key g == 1) groups) as Hone.
    { apply Forall_forall. intros g Hg. by apply aggregate_b64_slice, Hq. }
    rewrite filter_all
      by (eapply Forall_impl; [exact Hone|]; intros g Hg;
          simpl in Hg; rewrite Hg; lra).
    symmetry. apply sort_reverse_unique.
    - clear Hq. induction Hone as [|g l Hg Hl IH]; constructor; [done|].
      eapply Forall_impl; [exact Hl|]. intros g' Hg'. unfold descending.
      by rewrite Hg, Hg'.
    - done. }
  split; [apply Hall|]. intros Hnil. apply Hall. intros g _.
  rewrite Hnil. apply slice_nil.
Qed.
End MatchingProperties.

(** * Properties of the request handlers *)

Section GetGroupsProperties.
Context {char : Type} `{EqDecision char}.
Variables (isspace : char → bool) (lower : list char → list char).
Context {group dict : Type}.
Variables (name : group → list char) (description : group → option (list char)).
Variables (pinned : group → bool) (group_to_dict : group → dict).

Lemma get_groups_dicts q groups rows :
  get_groups_rows isspace lower name description pinned q groups = Some rows →
  get_groups isspace lower name description pinned group_to_dict q groups
  = Some (group_to_dict <$> rows).
Proof. intros Hrows. unfold get_groups. by rewrite Hrows. Qed.

Lemma pinned_first_perm (groups : list group) :
  filter (λ g, pinned g = true) groups ++ filter (λ g, pinned g = false) groups
  ≡ₚ groups.
Proof.
  assert (filter (λ g, pinned g = false) groups
          = filter (λ g, ¬ pinned g = true) groups) as ->.
  { apply list_filter_iff. intros g. by destruct (pinned g). }
  apply filter_app_complement.
Qed.

(** Without a query, or with a query of whitespace only (the empty
    string included), [get_groups] returns every group once: the pinned
    ones first, then the others, each part in the order of the table. *)
Theorem get_groups_without_query
    (q : option (list char)) (groups : list group) :
  (∀ s, q = Some s → Forall (λ c, isspace c = true) s) →
  ∃ rows,
    get_groups isspace lower name description pinned group_to_dict q groups
    = Some (group_to_dict <$> rows)
    ∧ rows = filter (λ g, pinned g = true) groups
             ++ filter (λ g, pinned g = false) groups
    ∧ rows ≡ₚ groups.
Proof.
  intros Hq. eexists. split; [|split; [done|apply pinned_first_perm]].
  apply get_groups_dicts. unfold get_groups_rows.
  destruct q as [s|]; [|done].
  rewrite effective_query, bool_decide_eq_true_2; [done|].
  apply strip_nil_split, strip_nil. by apply Hq.
Qed.

(** With a query that has a word, [get_groups] is the search for the
    query as it was sent (not stripped), with the default threshold. *)
Theorem get_groups_with_query (s : list char) (groups : list group) :
  split isspace s ≠ [] →
  get_groups_rows isspace lower name description pinned (Some s) groups
  = fuzzy_search isspace lower name description s groups 0.3%Q.
Proof.
  intros Hs. unfold get_groups_rows.
  by rewrite effective_query, bool_decide_eq_false_2.
Qed.

(** Whatever the query, [get_groups] returns rows of the table, none
    more often than the table has it. *)
Theorem get_groups_rows_of_table
    (q : option (list char)) (groups : list group) :
  ∃ rows,
    get_groups isspace lower name description pinned group_to_dict q groups
    = Some (group_to_dict <$> rows)
    ∧ rows ⊆+ groups.
Proof.
  assert (∀ s, ∃ rows,
    fuzzy_search isspace lower name description s groups 0.3%Q = Some rows
    ∧ rows ⊆+ groups) as Hsearch.
  { intros s. eexists. split; [apply fuzzy_search_sort|].
    rewrite sort_reverse_perm. apply sublist_submseteq, sublist_filter. }
  assert (∃ rows,
    get_groups_rows isspace lower name description pinned q groups = Some rows
    ∧ rows ⊆+ groups) as (rows & Hrows & Hsub).
  { unfold get_groups_rows. destruct q as [s|].
    - destruct (_ && _); [apply Hsearch|].
      eexists. split; [done|]. apply Permutation_submseteq, pinned_first_perm.
    - eexists. split; [done|]. apply Permutation_submseteq, pinned_first_perm. }
  exists rows. split; [by apply get_groups_dicts|done].
Qed.
End GetGroupsProperties.

Section RouteProperties.
Implicit Types path : list N.

Lemma endswith_str_in {char : Type} `{EqDecision char} (p s : list char) :
  endswith p s = true → str_in p s = true.
Proof.
  unfold endswith. rewrite startswith_prefix, str_in_slice.
  intros [k Hk]. exists (reverse k), [].
  apply (inj reverse). rewrite Hk, app_nil_r, reverse_app.
  by rewrite reverse_involutive.
Qed.

(** [serve_catch_all] never names a file through "..": the file it
    serves is one of three fixed files, or the requested path itself,
    which then starts with "static/" and has no ".." in it; otherwise
    the answer is 404. *)
Theorem serve_catch_all_no_traversal path :
  match serve_catch_all path with
  | Return (FileResponse file _) =>
      str_in (codes "..") file = false
      ∧ (file = codes "static/favicon.svg"
         ∨ file = codes "static/admin.html"
         ∨ file = codes "static/index.html"
         ∨ file = path ∧ codes "static/" `prefix_of` path)
  | HTTPException status_code message =>
      status_code = 404 ∧ message = NotFound
  end.
Proof.
  unfold serve_catch_all.
  destruct (str_in (codes "..") path) eqn:Hdots; [done|].
  destruct (startswith (codes "api/") path); [done|].
  destruct (_ || _); [by split; [|left]|].
  destruct (startswith (codes "static/") path) eqn:Hstatic.
  { apply startswith_prefix in Hstatic. split; [done|]. by do 3 right. }
  destruct (_ || _); split; try done; auto.
Qed.

(** [serve_catch_all] answers 404 exactly for the paths that contain
    ".." or start with "api/". *)
Theorem serve_catch_all_not_found path :
  serve_catch_all path = HTTPException 404 NotFound
  ↔ slice (codes "..") path ∨ codes "api/" `prefix_of` path.
Proof.
  rewrite <- str_in_slice, <- startswith_prefix. unfold serve_catch_all.
  destruct (str_in (codes "..") path); [by split; [left|]|].
  destruct (startswith (codes "api/") path); [by split; [right|]|].
  split; [|by intros [|]].
  by repeat (match goal with |- context [if ?b then _ else _] =>
    destruct b end).
Qed.

(** A path that is not refused gets the favicon exactly when
    "favicon.svg" occurs anywhere in it (the test on its end adds
    nothing), also when it starts with "static/" or "admin/". *)
Theorem serve_catch_all_favicon path :
  serve_catch_all path
  = Return (FileResponse (codes "static/favicon.svg")
              (Some (codes "image/svg+xml")))
  ↔ ¬ slice (codes "..") path
    ∧ ¬ codes "api/" `prefix_of` path
    ∧ slice (codes "favicon.svg") path.
Proof.
  rewrite <- !str_in_slice, <- startswith_prefix. unfold serve_catch_all.
  destruct (str_in (codes "..") path); [by split; [|intros [? _]]|].
  destruct (startswith (codes "api/") path); [by split; [|intros (_ & ? & _)]|].
  destruct (str_in (codes "favicon.svg") path) eqn:Hin.
  { rewrite orb_true_r. by repeat split. }
  destruct (endswith (codes "favicon.svg") path) eqn:Hend.
  { apply endswith_str_in in Hend. congruence. }
  simpl. split; [|by intros (_ & _ & ?)].
  by repeat (match goal with |- context [if ?b then _ else _] =>
    destruct b end).
Qed.
End RouteProperties.

Section AdminProperties.
Context {char : Type} `{EqDecision char}.
Variable ADMIN_PASSWORD : list char.
Implicit Types (password : list char) (st : lockout).
Local Open Scope Z_scope.

Lemma admin_login_locked password (now1 now2 : Z) st t :
  locked_until st = Some t → now1 < t →
  admin_login ADMIN_PASSWORD password now1 now2 st
  = (HTTPException 403 (locked_detail (t - now2)), st).
Proof.
  intros Ht Hnow. unfold admin_login, locked_at. rewrite Ht.
  by rewrite bool_decide_eq_true_2.
Qed.

Lemma admin_login_wrong password (now1 now2 : Z) st :
  locked_at st now1 = false → password ≠ ADMIN_PASSWORD →
  admin_login ADMIN_PASSWORD password now1 now2 st
  = if bool_decide (3 ≤ attempts st + 1)%nat then
      (HTTPException 403 TooManyAttempts,
       Lockout (attempts st + 1) (Some (now2 + hours24)))
    else (HTTPException 401 (WrongPassword (attempts st + 1)),
          Lockout (attempts st + 1) (locked_until st)).
Proof.
  intros Hopen Hwrong. unfold admin_login. rewrite Hopen.
  by rewrite bool_decide_eq_false_2.
Qed.

(** A lock is only ever set with three failures counted. *)
Lemma admin_login_counted password (now1 now2 : Z) st :
  (is_Some (locked_until st) → (3 ≤ attempts st)%nat) →
  let st' := (admin_login ADMIN_PASSWORD password now1 now2 st).2 in
  is_Some (locked_until st') → (3 ≤ attempts st')%nat.
Proof.
  intros Hst. unfold admin_login.
  destruct (locked_at st now1); [done|].
  case_bool_decide; [by intros [? [=]]|].
  simpl. case_bool_decide; simpl; [done|]. intros Hsome. apply Hst in Hsome. lia.
Qed.

Lemma after_logins_counted requests : ∀ st,
  (is_Some (locked_until st) → (3 ≤ attempts st)%nat) →
  is_Some (locked_until (after_logins ADMIN_PASSWORD requests st)) →
  (3 ≤ attempts (after_logins ADMIN_PASSWORD requests st))%nat.
Proof.
  induction requests as [|r requests IH]; intros st Hst; [done|].
  apply IH. by apply admin_login_counted.
Qed.

(** Until the lock ends, no request changes anything: every login is
    refused with 403 and the time left, the right password too, and the
    lock is neither lifted nor extended. *)
Theorem admin_login_locked_period
    (requests : list (login_request (char := char))) st t :
  locked_until st = Some t →
  Forall (λ r, clock1 r < t) requests →
  after_logins ADMIN_PASSWORD requests st = st
  ∧ Forall (λ r, admin_login ADMIN_PASSWORD (sent r) (clock1 r) (clock2 r) st
                 = (HTTPException 403 (locked_detail (t - clock2 r)), st))
      requests.
Proof.
  intros Ht Hall. split.
  - induction Hall as [|r requests Hr _ IH]; [done|].
    unfold after_logins. simpl. by rewrite (admin_login_locked _ _ _ _ t).
  - eapply Forall_impl; [exact Hall|]. intros r Hr.
    by apply admin_login_locked.
Qed.

(** A login succeeds exactly when the password is the right one and the
    account is not locked at that time; it then forgets the failures. *)
Theorem admin_login_success password (now1 now2 : Z) st :
  ((admin_login ADMIN_PASSWORD password now1 now2 st).1 = Return ()
   ↔ password = ADMIN_PASSWORD ∧ locked_at st now1 = false)
  ∧ ((admin_login ADMIN_PASSWORD password now1 now2 st).1 = Return () →
     (admin_login ADMIN_PASSWORD password now1 now2 st).2 = lockout_init).
Proof.
  unfold admin_login. destruct (locked_at st now1).
  { split; [split; [done|by intros [_ ?]]|done]. }
  case_bool_decide as Hpw; [done|].
  simpl. case_bool_decide; simpl; (split; [split; [done|by intros [? _]]|done]).
Qed.

(** Three wrong passwords in a row on a fresh counter: 401 with the
    counts 1/3 and 2/3, then 403 and a lock of 24 hours from the third
    request, whenever the requests come. *)
Theorem admin_login_three_strikes
    (p1 p2 p3 : list char) (a1 b1 a2 b2 a3 b3 : Z) :
  p1 ≠ ADMIN_PASSWORD → p2 ≠ ADMIN_PASSWORD → p3 ≠ ADMIN_PASSWORD →
  let r1 := admin_login ADMIN_PASSWORD p1 a1 b1 lockout_init in
  let r2 := admin_login ADMIN_PASSWORD p2 a2 b2 r1.2 in
  let r3 := admin_login ADMIN_PASSWORD p3 a3 b3 r2.2 in
  r1.1 = HTTPException 401 (WrongPassword 1)
  ∧ r2.1 = HTTPException 401 (WrongPassword 2)
  ∧ r3 = (HTTPException 403 TooManyAttempts, Lockout 3 (Some (b3 + hours24))).
Proof.
  intros H1 H2 H3. cbv zeta.
  rewrite (admin_login_wrong p1) by done. simpl.
  rewrite (admin_login_wrong p2) by done. simpl.
  by rewrite (admin_login_wrong p3) by done.
Qed.

(** The end of a lock does not reset the counter: in any state reached
    from the initial one, a lock was set with at least three failures
    counted, and once it is over the first wrong password locks the
    account again at once, for 24 hours. *)
Theorem admin_login_relock
    (requests : list (login_request (char := char))) password (now1 now2 : Z) :
  let st := after_logins ADMIN_PASSWORD requests lockout_init in
  is_Some (locked_until st) →
  locked_at st now1 = false →
  password ≠ ADMIN_PASSWORD →
  (3 ≤ attempts st)%nat
  ∧ admin_login ADMIN_PASSWORD password now1 now2 st
    = (HTTPException 403 TooManyAttempts,
       Lockout (attempts st + 1) (Some (now2 + hours24))).
Proof.
  intros st Hlock Hopen Hwrong.
  assert (3 ≤ attempts st)%nat as Hcount.
  { apply after_logins_counted; [by intros [? [=]]|done]. }
  split; [done|]. rewrite admin_login_wrong by done.
  by rewrite bool_decide_eq_true_2 by lia.
Qed.

(** While the account is locked, [admin_status] and [admin_login]
    agree: the status gives the whole seconds [r] left, and the login
    is refused with [r / 3600] hours if that is at least one, and with
    [r / 60] minutes (59 at most) otherwise. *)
Theorem admin_status_login_agree password (now1 now2 : Z) st t :
  locked_until st = Some t → now1 < t → now2 ≤ t →
  ∃ r,
    admin_status now1 now2 st = StatusLocked r
    ∧ 0 ≤ r
    ∧ admin_login ADMIN_PASSWORD password now1 now2 st
      = (HTTPException 403
           (if bool_decide (3600 ≤ r) then LockedHours (r / 3600)
            else LockedMinutes (r / 60)), st)
    ∧ (r < 3600 → 0 ≤ r / 60 < 60).
Proof.
  intros Ht Hnow1 Hnow2.
  exists ((t - now2) / second).
  assert (0 ≤ t - now2) as Hpos by lia.
  assert (0 < second) as Hsec by done.
  split; [|split; [by apply Z.div_pos|split]].
  - unfold admin_status, locked_at. rewrite Ht.
    rewrite bool_decide_eq_true_2 by done. simpl.
    by rewrite Z.quot_div_nonneg.
  - rewrite (admin_login_locked _ _ _ _ t) by done. f_equal. f_equal.
    unfold locked_detail. cbv zeta.
    set (R := t - now2) in *. set (r := R / second).
    assert (0 ≤ r) as Hr by (by apply Z.div_pos).
    assert (R = second * r + R `mod` second) as Hdiv by (by apply Z.div_mod).
    pose proof (Z.mod_pos_bound R second Hsec) as Hmod.
    assert (R / (3600 * second) = r / 3600) as ->.
    { unfold r. by rewrite (Z.mul_comm 3600), Z.div_div. }
    destruct (decide (3600 ≤ r)) as [Hh|Hm].
    + rewrite !bool_decide_eq_true_2; [done|done|].
      apply Z.div_str_pos. lia.
    + rewrite !bool_decide_eq_false_2; [|done|].
      * f_equal. rewrite Z.mod_small by (unfold second in *; lia).
        unfold r. by rewrite (Z.mul_comm 60), Z.div_div.
      * rewrite Z.div_small; lia.
  - intros Hr. split; [apply Z.div_pos; [by apply Z.div_pos|done]|].
    apply Z.div_lt_upper_bound; lia.
Qed.
End AdminProperties.

(** * Scenarios of the further properties *)

Section MoreScenarios.
Import Ascii7.
Local Open Scope Q_scope.

Example get_groups_pinned_first :
  Demo.groups None [Demo.chess; Demo.soccer; Demo.books]
  = Some (Demo.row_dict <$> [Demo.soccer; Demo.chess; Demo.books])
  ∧ Demo.groups (Some "  ") [Demo.chess; Demo.soccer; Demo.books]
    = Some (Demo.row_dict <$> [Demo.soccer; Demo.chess; Demo.books]).
Proof. split; vm_compute; reflexivity. Qed.

(** The query is matched as sent: a space before it hides "Chess". *)
Example get_groups_query_not_stripped :
  Demo.groups (Some "chess") [Demo.chess; Demo.soccer; Demo.books]
  = Some [Demo.row_dict Demo.chess]
  ∧ Demo.groups (Some " chess") [Demo.chess; Demo.soccer; Demo.books]
    = Some [].
Proof. split; vm_compute; reflexivity. Qed.

Example serve_catch_all_examples :
  serve_catch_all (codes "static/../main.py") = HTTPException 404 NotFound
  ∧ serve_catch_all (codes "api/unknown") = HTTPException 404 NotFound
  ∧ serve_catch_all (codes "static/app.js")
    = Return (FileResponse (codes "static/app.js") None)
  ∧ serve_catch_all (codes "static/favicon.svg.bak")
    = Return (FileResponse (codes "static/favicon.svg")
                (Some (codes "image/svg+xml")))
  ∧ serve_catch_all (codes "admin/x")
    = Return (FileResponse (codes "static/admin.html") None)
  ∧ serve_catch_all (codes "administrator")
    = Return (FileResponse (codes "static/index.html") None)
  ∧ serve_catch_all (codes "")
    = Return (FileResponse (codes "static/index.html") None).
Proof. repeat split; vm_compute; reflexivity. Qed.

Lemma fuzzy_match_threshold_monotone_witness :
  ∃ v1 v2,
    score "wrold" "hello world" 0.3 = Some v1
    ∧ score "wrold" "hello world" 0.5 = Some v2
    ∧ v1 <= v2.
Proof.
  apply (fuzzy_match_threshold_monotone isspace lower
           (text "wrold") (text "hello world") 0.3 0.5).
  unfold Qle. simpl. lia.
Defined.

Lemma fuzzy_match_threshold_nonpositive_witness :
  score "wrld" "hello world" 0 = Some 0
  ∧ score "wor" "hello world" (-1) = Some 1.
Proof.
  split.
  - refine (fuzzy_match_threshold_nonpositive isspace lower
              (text "wrld") (text "hello world") 0 _).
    unfold Qle. simpl. lia.
  - refine (fuzzy_match_threshold_nonpositive isspace lower
              (text "wor") (text "hello world") (-1) _).
    unfold Qle. simpl. lia.
Defined.


Lemma fuzzy_match_long_query_witness :
  score " cat" "cat" 0.3 = Some 0 ∧ score "cat" "   " 1 = Some 0.
Proof.
  split.
  - apply (fuzzy_match_long_query isspace lower (text " cat") (text "cat")).
    + rewrite <- str_in_slice. vm_compute. discriminate.
    + intros word Hword. vm_compute in Hword.
      apply list_elem_of_singleton in Hword. subst. simpl. lia.
  - apply (fuzzy_match_long_query isspace lower (text "cat") (text "   ")).
    + rewrite <- str_in_slice. vm_compute. discriminate.
    + intros word Hword. vm_compute in Hword. by apply elem_of_nil in Hword.
Defined.

Lemma fuzzy_search_threshold_monotone_witness :
  ∃ out1 out2,
    rank "socer" [book_club; soccer_fans] 0.1 = Some out1
    ∧ rank "socer" [book_club; soccer_fans] 0.3 = Some out2
    ∧ out1 ⊆+ out2.
Proof.
  apply (fuzzy_search_threshold_monotone isspace lower name description
           (text "socer") [book_club; soccer_fans] 0.1 0.3).
  unfold Qle. simpl. lia.
Defined.

(** "Soccer Fans" has the query in its name, "Book Club" in its
    description only. *)
Lemma fuzzy_search_name_matches_first_witness :
  ∃ rest,
    rank "soccer" [book_club; soccer_fans] 0.3
    = Some (filter (λ g, str_in (lower (text "soccer")) (lower (name g))
                         = true) [book_club; soccer_fans]
            ++ rest)
    ∧ ∀ g, g ∈ rest
           → str_in (lower (text "soccer")) (lower (name g)) = false.
Proof.
  apply (fuzzy_search_name_matches_first isspace lower name description
           (text "soccer") [book_club; soccer_fans] 0.3).
  intros g Hg.
  repeat (apply elem_of_cons in Hg as [->|Hg]); [reflexivity..|].
  by apply elem_of_nil in Hg.
Defined.

(** The two groups of the scenario, both kept. *)
Lemma fuzzy_search_default_exact_totals_witness :
  ∃ out,
    rank "soccer" [book_club; soccer_fans] 0.3 = Some out
    ∧ ∀ g, g ∈ out
           ↔ g ∈ [book_club; soccer_fans]
             ∧ ¬ aggregate isspace lower name description
                   (text "soccer") 0.3 g == 0.
Proof.
  apply (fuzzy_search_default_exact_totals isspace lower name description
           (text "soccer") [book_club; soccer_fans]).
  intros g Hg.
  repeat (apply elem_of_cons in Hg as [->|Hg]); [split; reflexivity..|].
  by apply elem_of_nil in Hg.
Defined.

Lemma fuzzy_search_all_match_witness :
  rank "" [book_club; soccer_fans] 0.3 = Some [book_club; soccer_fans].
Proof.
  apply (proj2 (fuzzy_search_all_match isspace lower name description
                  (text "") [book_club; soccer_fans] 0.3)).
  reflexivity.
Defined.

Lemma get_groups_without_query_witness :
  ∃ rows,
    Demo.groups (Some "  ") [Demo.chess; Demo.soccer; Demo.books]
    = Some (Demo.row_dict <$> rows)
    ∧ rows = filter (λ g, Demo.row_pinned g = true)
               [Demo.chess; Demo.soccer; Demo.books]
             ++ filter (λ g, Demo.row_pinned g = false)
                  [Demo.chess; Demo.soccer; Demo.books]
    ∧ rows ≡ₚ [Demo.chess; Demo.soccer; Demo.books].
Proof.
  apply (get_groups_without_query isspace lower Demo.row_name
           Demo.row_description Demo.row_pinned Demo.row_dict
           (Some (text "  "))).
  intros s [= <-]. repeat constructor.
Defined.

Lemma get_groups_with_query_witness :
  get_groups_rows isspace lower Demo.row_name Demo.row_description
    Demo.row_pinned (Some (text " soccer"))
    [Demo.chess; Demo.soccer; Demo.books]
  = fuzzy_search isspace lower Demo.row_name Demo.row_description
      (text " soccer") [Demo.chess; Demo.soccer; Demo.books] 0.3.
Proof.
  apply (get_groups_with_query isspace lower Demo.row_name
           Demo.row_description Demo.row_pinned (text " soccer")).
  vm_compute. discriminate.
Defined.
End MoreScenarios.

Section AdminScenarios.
Local Open Scope Z_scope.

Lemma admin_login_locked_period_witness :
  after_logins Demo.password
    [LoginRequest Demo.password 5 6; Demo.wrong 99]
    (Lockout 3 (Some 100))
  = Lockout 3 (Some 100)
  ∧ admin_login Demo.password Demo.password 5 6 (Lockout 3 (Some 100))
    = (HTTPException 403 (LockedMinutes 0), Lockout 3 (Some 100)).
Proof.
  destruct (admin_login_locked_period Demo.password
              [LoginRequest Demo.password 5 6; Demo.wrong 99]
              (Lockout 3 (Some 100)) 100) as [Hstate Hall].
  - reflexivity.
  - repeat constructor; simpl; lia.
  - split; [exact Hstate|]. apply Forall_cons_1 in Hall as [Hfirst _].
    exact Hfirst.
Defined.

Lemma admin_login_three_strikes_witness :
  after_logins Demo.password [Demo.wrong 10; Demo.wrong 20; Demo.wrong 30]
    lockout_init
  = Lockout 3 (Some (30 + hours24)).
Proof.
  destruct (admin_login_three_strikes Demo.password
              (codes "guess") (codes "guess") (codes "guess")
              10 10 20 20 30 30) as (_ & _ & Hthird).
  - vm_compute. discriminate.
  - vm_compute. discriminate.
  - vm_compute. discriminate.
  - exact (f_equal snd Hthird).
Defined.

Lemma admin_login_relock_witness :
  admin_login Demo.password (codes "guess")
    (31 + hours24) (31 + hours24)
    (after_logins Demo.password
       [Demo.wrong 10; Demo.wrong 20; Demo.wrong 30] lockout_init)
  = (HTTPException 403 TooManyAttempts,
     Lockout 4 (Some (31 + hours24 + hours24))).
Proof.
  refine (proj2 (admin_login_relock Demo.password
                   [Demo.wrong 10; Demo.wrong 20; Demo.wrong 30]
                   (codes "guess") (31 + hours24) (31 + hours24) _ _ _)).
  - vm_compute. eauto.
  - vm_compute. reflexivity.
  - vm_compute. discriminate.
Defined.

Lemma admin_status_login_agree_witness :
  ∃ r,
    admin_status 0 0 (Lockout 3 (Some 5400000000)) = StatusLocked r
    ∧ 0 ≤ r
    ∧ admin_login Demo.password Demo.password 0 0
        (Lockout 3 (Some 5400000000))
      = (HTTPException 403
           (if bool_decide (3600 ≤ r) then LockedHours (r / 3600)
            else LockedMinutes (r / 60)), Lockout 3 (Some 5400000000))
    ∧ (r < 3600 → 0 ≤ r / 60 < 60).
Proof.
  apply (admin_status_login_agree Demo.password Demo.password 0 0
           (Lockout 3 (Some 5400000000)) 5400000000).
  - reflexivity.
  - lia.
  - lia.
Defined.

Example admin_lock_messages :
  admin_login Demo.password Demo.password 0 0 (Lockout 3 (Some 5400000000))
  = (HTTPException 403 (LockedHours 1), Lockout 3 (Some 5400000000))
  ∧ admin_login Demo.password Demo.password 0 0 (Lockout 3 (Some 59999999))
    = (HTTPException 403 (LockedMinutes 0), Lockout 3 (Some 59999999))
  ∧ admin_status 0 0 (Lockout 3 (Some 59999999)) = StatusLocked 59
  ∧ admin_status 0 0 lockout_init = StatusOpen 0.
Proof. repeat split; vm_compute; reflexivity. Qed.
End AdminScenarios.
